(** * Contact list application: the collection engine of [App.jsx]

    A shallow embedding of the React component [App] (src/src/App.jsx) and of
    the two forms [AddContactForm] and [EditContactForm].

    - Component state (the [useState] cells) is a record; every handler is a
      function from state to state that reads the cells as they are when the
      handler starts and applies its updates.
    - The timers started by [setTimeout] in [showToast] are a queue carried in
      the state; the oldest one fires first.
    - [filteredContacts] is recomputed by an effect whenever [contacts] or
      [searchQuery] change, so it is a function of the two.
    - User input is a list of events; an event runs the handler of its
      control when the JSX renders that control.

    A JavaScript string is the sequence of its UTF-16 code units; [trim],
    [includes], [===] and the regular-expression class [\S] are defined on
    code units as ECMAScript defines them.  [toLowerCase] and [localeCompare]
    are given by the Unicode tables and the collation of the host: the code
    that calls them is parametric in them.  Ids are numbers without a
    fractional part, modelled as [Z]. *)

From Stdlib Require Import List NArith ZArith Bool Lia.
From Stdlib Require Import Permutation Sorted.
From Stdlib.Strings Require Import Byte.
Import ListNotations.

(** ** JavaScript strings *)

Module String.

(** A UTF-16 code unit, by its number. *)
Abbreviation codeUnit := N (only parsing).

Inductive string : Set :=
| EmptyString
| String (c : codeUnit) (s : string).

(** [s + t] *)
Fixpoint append (s t : string) : string :=
  match s with
  | EmptyString => t
  | String c s' => String c (append s' t)
  end.

(** [s.length] *)
Fixpoint length (s : string) : nat :=
  match s with
  | EmptyString => O
  | String _ s' => S (length s')
  end.

(** [s === t]: the same code units in the same order. *)
Fixpoint eqb (s t : string) : bool :=
  match s, t with
  | EmptyString, EmptyString => true
  | String a s', String b t' => (a =? b)%N && eqb s' t'
  | _, _ => false
  end.

(** [s.startsWith(t)] *)
Fixpoint prefix (t s : string) : bool :=
  match t, s with
  | EmptyString, _ => true
  | String a t', String b s' => (a =? b)%N && prefix t' s'
  | String _ _, EmptyString => false
  end.

(** The order of [<] on strings: by the first code unit that differs. *)
Fixpoint compare (s t : string) : comparison :=
  match s, t with
  | EmptyString, EmptyString => Eq
  | EmptyString, String _ _ => Lt
  | String _ _, EmptyString => Gt
  | String a s', String b t' =>
      match (a ?= b)%N with
      | Eq => compare s' t'
      | o => o
      end
  end.

(** String literals stand for strings of ASCII characters; any other code
    unit is written by its number. *)
Fixpoint ofBytes (l : list byte) : option string :=
  match l with
  | [] => Some EmptyString
  | b :: l' =>
      match ofBytes l' with
      | Some s => if (to_N b <? 128)%N then Some (String (to_N b) s) else None
      | None => None
      end
  end.

Fixpoint toBytes (s : string) : option (list byte) :=
  match s with
  | EmptyString => Some []
  | String c s' =>
      match of_N c, toBytes s' with
      | Some b, Some l => if (c <? 128)%N then Some (b :: l) else None
      | _, _ => None
      end
  end.

End String.

Import String.

Declare Scope js_scope.
Delimit Scope js_scope with js.
Bind Scope js_scope with string.
String Notation string ofBytes toBytes : js_scope.
Notation "s ++ t" := (append s t) : js_scope.
Notation "s =? t" := (eqb s t) : js_scope.

Local Open Scope js_scope.
Local Open Scope list_scope.

(** ** ECMAScript string primitives *)

Module JS.

(** White space and line terminators of ECMAScript: TAB, LF, VT, FF, CR,
    SPACE, NO-BREAK SPACE, OGHAM SPACE MARK, EN QUAD to HAIR SPACE, LINE
    SEPARATOR, PARAGRAPH SEPARATOR, NARROW NO-BREAK SPACE, MEDIUM
    MATHEMATICAL SPACE, IDEOGRAPHIC SPACE and ZERO WIDTH NO-BREAK SPACE.
    [String.prototype.trim] strips them and the regular-expression class [\s]
    matches them. *)
Definition isWhiteSpace (c : codeUnit) : bool :=
  ((9 <=? c) && (c <=? 13) || (c =? 32) || (c =? 0xA0) || (c =? 0x1680)
   || (0x2000 <=? c) && (c <=? 0x200A) || (c =? 0x2028) || (c =? 0x2029)
   || (c =? 0x202F) || (c =? 0x205F) || (c =? 0x3000) || (c =? 0xFEFF))%N.

Fixpoint trimStart (s : string) : string :=
  match s with
  | EmptyString => EmptyString
  | String c s' => if isWhiteSpace c then trimStart s' else s
  end.

Fixpoint trimEnd (s : string) : string :=
  match s with
  | EmptyString => EmptyString
  | String c s' =>
      match trimEnd s' with
      | EmptyString => if isWhiteSpace c then EmptyString else String c EmptyString
      | t => String c t
      end
  end.

(** [s.trim()] *)
Definition trim (s : string) : string := trimEnd (trimStart s).

(** [s.includes(t)]: [t] occurs in [s] as a contiguous substring. *)
Fixpoint includes (s t : string) : bool :=
  prefix t s ||
  match s with
  | EmptyString => false
  | String _ s' => includes s' t
  end.

(** A string used as a condition: the empty string is falsy. *)
Definition truthy (s : string) : bool :=
  match s with EmptyString => false | _ => true end.

(** [s || null] *)
Definition orNull (s : string) : option string :=
  if truthy s then Some s else None.

Definition nonSpace (c : codeUnit) : bool := negb (isWhiteSpace c).

(** The code units of ["@"] and of ["."]. *)
Definition at_sign : codeUnit := 64.
Definition full_stop : codeUnit := 46.

(** The regular expression [/\S+@\S+\.\S+/] of the two forms, tested without
    anchors.  [afterDot] is the final [\S+] (one character is enough),
    [domain] is [\S*\.\S+] read after at least one [\S], [afterAt] is
    [\S+\.\S+], and [emailTest] looks for a [\S] followed by ["@"] at any
    position. *)
Definition afterDot (s : string) : bool :=
  match s with
  | String d _ => nonSpace d
  | EmptyString => false
  end.

Fixpoint domain (s : string) : bool :=
  match s with
  | EmptyString => false
  | String x s' =>
      nonSpace x && (((x =? full_stop)%N && afterDot s') || domain s')
  end.

Definition afterAt (s : string) : bool :=
  match s with
  | String x s' => nonSpace x && domain s'
  | EmptyString => false
  end.

Fixpoint emailTest (s : string) : bool :=
  match s with
  | EmptyString => false
  | String c s' =>
      (nonSpace c &&
       match s' with
       | String a rest => (a =? at_sign)%N && afterAt rest
       | EmptyString => false
       end)
      || emailTest s'
  end.

End JS.

(** ** Data model *)

(** A contact record as the JSON data and the forms build it.  Optional
    fields hold [null] when absent. *)
Record Contact := mkContact {
  id : Z;
  name : string;
  email : string;
  phone : string;
  location : option string;
  address : option string;
  birthday : option string;
  isFavorite : bool
}.

(** [{ ...contact, isFavorite: b }] *)
Definition withFavorite (b : bool) (c : Contact) : Contact :=
  mkContact (id c) (name c) (email c) (phone c)
            (location c) (address c) (birthday c) b.

(** ** Query pipeline: the filter/sort effect of [App] *)

Section QueryPipeline.

(** [String.prototype.toLowerCase] maps a string by the case mappings of the
    Unicode Character Database, some of which depend on the neighbouring
    characters; [String.prototype.localeCompare] is implementation-defined
    (it follows the collation of the host locale).  The pipeline is
    parametric in both. *)
Variable toLowerCase : string -> string.
Variable localeCompare : string -> string -> Z.

(** The comparator handed to [Array.prototype.sort]. *)
Definition compareContacts (a b : Contact) : Z :=
  if isFavorite a && negb (isFavorite b) then (-1)%Z
  else if negb (isFavorite a) && isFavorite b then 1%Z
  else localeCompare (name a) (name b).

(** [Array.prototype.sort] is stable, and with a consistent comparator the
    result of a stable sort is determined: it is the one of stable
    insertion. *)
Fixpoint insertSorted (cmp : Contact -> Contact -> Z) (x : Contact)
         (l : list Contact) : list Contact :=
  match l with
  | [] => [x]
  | y :: l' =>
      if (cmp x y <=? 0)%Z then x :: y :: l' else y :: insertSorted cmp x l'
  end.

Fixpoint sort (cmp : Contact -> Contact -> Z) (l : list Contact)
  : list Contact :=
  match l with
  | [] => []
  | x :: l' => insertSorted cmp x (sort cmp l')
  end.

(** The predicate of [contacts.filter(...)] in the effect. *)
Definition matchesQuery (searchQuery : string) (contact : Contact) : bool :=
  JS.includes (toLowerCase (name contact)) (toLowerCase searchQuery).

Definition filtered (contacts : list Contact) (searchQuery : string)
  : list Contact :=
  if String.eqb (JS.trim searchQuery) "" then contacts
  else filter (matchesQuery searchQuery) contacts.

(** The value the effect stores in [filteredContacts]. *)
Definition filteredContacts (contacts : list Contact) (searchQuery : string)
  : list Contact :=
  sort compareContacts (filtered contacts searchQuery).

End QueryPipeline.

(** ** Application state *)

(** The [type] argument of [showToast]: ['success'] or ['delete']. *)
Inductive ToastType := success | delete.

Definition ToastType_eqb (a b : ToastType) : bool :=
  match a, b with
  | success, success | delete, delete => true
  | _, _ => false
  end.

Record Toast := mkToast {
  show : bool;
  message : string;
  type : ToastType
}.

(** The [useState] cells of [App] that the handlers read or write, and the
    queue of timers that [showToast] has started and that have not fired yet,
    oldest first (all of them run for 5000 ms, so they fire in the order in
    which they were started; each remembers the [type] of its toast). *)
Record State := mkState {
  contacts : list Contact;
  searchQuery : string;
  toast : Toast;
  deletedContact : option Contact;
  showConfirmDialog : bool;
  contactToDelete : option Contact;
  showInfoDialog : bool;
  contactToShow : option Contact;
  showAddForm : bool;
  showEditForm : bool;
  contactToEdit : option Contact;
  timers : list ToastType
}.

Definition setContacts (v : list Contact) (s : State) : State :=
  mkState v (searchQuery s) (toast s) (deletedContact s)
          (showConfirmDialog s) (contactToDelete s) (showInfoDialog s)
          (contactToShow s) (showAddForm s) (showEditForm s)
          (contactToEdit s) (timers s).

Definition setSearchQuery (v : string) (s : State) : State :=
  mkState (contacts s) v (toast s) (deletedContact s)
          (showConfirmDialog s) (contactToDelete s) (showInfoDialog s)
          (contactToShow s) (showAddForm s) (showEditForm s)
          (contactToEdit s) (timers s).

Definition setToast (v : Toast) (s : State) : State :=
  mkState (contacts s) (searchQuery s) v (deletedContact s)
          (showConfirmDialog s) (contactToDelete s) (showInfoDialog s)
          (contactToShow s) (showAddForm s) (showEditForm s)
          (contactToEdit s) (timers s).

Definition setDeletedContact (v : option Contact) (s : State) : State :=
  mkState (contacts s) (searchQuery s) (toast s) v
          (showConfirmDialog s) (contactToDelete s) (showInfoDialog s)
          (contactToShow s) (showAddForm s) (showEditForm s)
          (contactToEdit s) (timers s).

Definition setShowConfirmDialog (v : bool) (s : State) : State :=
  mkState (contacts s) (searchQuery s) (toast s) (deletedContact s)
          v (contactToDelete s) (showInfoDialog s)
          (contactToShow s) (showAddForm s) (showEditForm s)
          (contactToEdit s) (timers s).

Definition setContactToDelete (v : option Contact) (s : State) : State :=
  mkState (contacts s) (searchQuery s) (toast s) (deletedContact s)
          (showConfirmDialog s) v (showInfoDialog s)
          (contactToShow s) (showAddForm s) (showEditForm s)
          (contactToEdit s) (timers s).

Definition setShowInfoDialog (v : bool) (s : State) : State :=
  mkState (contacts s) (searchQuery s) (toast s) (deletedContact s)
          (showConfirmDialog s) (contactToDelete s) v
          (contactToShow s) (showAddForm s) (showEditForm s)
          (contactToEdit s) (timers s).

Definition setContactToShow (v : option Contact) (s : State) : State :=
  mkState (contacts s) (searchQuery s) (toast s) (deletedContact s)
          (showConfirmDialog s) (contactToDelete s) (showInfoDialog s)
          v (showAddForm s) (showEditForm s)
          (contactToEdit s) (timers s).

Definition setShowAddForm (v : bool) (s : State) : State :=
  mkState (contacts s) (searchQuery s) (toast s) (deletedContact s)
          (showConfirmDialog s) (contactToDelete s) (showInfoDialog s)
          (contactToShow s) v (showEditForm s)
          (contactToEdit s) (timers s).

Definition setShowEditForm (v : bool) (s : State) : State :=
  mkState (contacts s) (searchQuery s) (toast s) (deletedContact s)
          (showConfirmDialog s) (contactToDelete s) (showInfoDialog s)
          (contactToShow s) (showAddForm s) v
          (contactToEdit s) (timers s).

Definition setContactToEdit (v : option Contact) (s : State) : State :=
  mkState (contacts s) (searchQuery s) (toast s) (deletedContact s)
          (showConfirmDialog s) (contactToDelete s) (showInfoDialog s)
          (contactToShow s) (showAddForm s) (showEditForm s)
          v (timers s).

Definition setTimers (v : list ToastType) (s : State) : State :=
  mkState (contacts s) (searchQuery s) (toast s) (deletedContact s)
          (showConfirmDialog s) (contactToDelete s) (showInfoDialog s)
          (contactToShow s) (showAddForm s) (showEditForm s)
          (contactToEdit s) v.

(** The toast that is not shown: [{ show: false, message: '', type: 'success' }]. *)
Definition hiddenToast : Toast := mkToast false "" success.

(** The state once the fetch effect has stored the seed data: every seed
    record gets [isFavorite: false], nothing is pending, every dialog is
    closed. *)
Definition initialState (contactsData : list Contact) : State :=
  mkState (map (withFavorite false) contactsData) "" hiddenToast None
          false None false None false false None [].

(** ** Handlers of [App] *)

(** [contacts.find(c => c.id === contactId)] *)
Definition findContact (contactId : Z) (l : list Contact) : option Contact :=
  find (fun c => (id c =? contactId)%Z) l.

(** [showToast(message, type)]: shows the toast and starts a timer for it;
    the timer's identifier is dropped, so nothing can clear it. *)
Definition showToast (msg : string) (ty : ToastType) (s : State) : State :=
  setTimers (timers s ++ [ty]) (setToast (mkToast true msg ty) s).

(** The callback of the oldest pending timer runs: it hides the toast and,
    when the timer was started for a ['delete'] toast, empties the pending
    slot. *)
Definition timerExpires (s : State) : State :=
  match timers s with
  | [] => s
  | ty :: rest =>
      let s1 := setTimers rest (setToast hiddenToast s) in
      match ty with
      | delete => setDeletedContact None s1
      | success => s1
      end
  end.

Definition handleSearchChange (query : string) (s : State) : State :=
  setSearchQuery query s.

Definition handleAddContact (newContact : Contact) (s : State) : State :=
  let contactWithFavorite := withFavorite false newContact in
  showToast (String 0x2713 " " ++ name newContact ++ " added successfully!") success
            (setContacts (contactWithFavorite :: contacts s) s).

Definition handleToggleFavorite (contactId : Z) (s : State) : State :=
  let s1 :=
    setContacts
      (map (fun contact =>
              if (id contact =? contactId)%Z
              then withFavorite (negb (isFavorite contact)) contact
              else contact)
           (contacts s)) s in
  match findContact contactId (contacts s) with
  | Some contact =>
      let action := if isFavorite contact then "removed from" else "added to" in
      showToast (name contact ++ " " ++ action ++ " favorites") success s1
  | None => s1
  end.

Definition handleDeleteContact (contactId : Z) (s : State) : State :=
  match findContact contactId (contacts s) with
  | Some contact => setShowConfirmDialog true (setContactToDelete (Some contact) s)
  | None => s
  end.

Definition handleConfirmDelete (s : State) : State :=
  match contactToDelete s with
  | Some c =>
      setContactToDelete None
        (setShowConfirmDialog false
           (showToast (name c ++ " deleted " ++ String 0x2014 " Undo?") delete
              (setContacts
                 (filter (fun x => negb (id x =? id c)%Z) (contacts s))
                 (setDeletedContact (Some c) s))))
  | None => s
  end.

Definition handleCancelDelete (s : State) : State :=
  setContactToDelete None (setShowConfirmDialog false s).

Definition handleShowInfo (contactId : Z) (s : State) : State :=
  match findContact contactId (contacts s) with
  | Some contact => setShowInfoDialog true (setContactToShow (Some contact) s)
  | None => s
  end.

Definition handleCloseInfo (s : State) : State :=
  setContactToShow None (setShowInfoDialog false s).

Definition handleShowAddForm (s : State) : State := setShowAddForm true s.

Definition handleCloseAddForm (s : State) : State := setShowAddForm false s.

Definition handleShowEditForm (contactId : Z) (s : State) : State :=
  match findContact contactId (contacts s) with
  | Some contact => setShowEditForm true (setContactToEdit (Some contact) s)
  | None => s
  end.

Definition handleCloseEditForm (s : State) : State :=
  setContactToEdit None (setShowEditForm false s).

Definition handleUpdateContact (updatedContact : Contact) (s : State) : State :=
  handleCloseEditForm
    (showToast (String 0x2713 " " ++ name updatedContact ++ " updated successfully!") success
       (setContacts
          (map (fun contact =>
                  if (id contact =? id updatedContact)%Z
                  then updatedContact else contact)
               (contacts s)) s)).

Definition handleUndoDelete (s : State) : State :=
  match deletedContact s with
  | Some d =>
      setDeletedContact None
        (showToast (name d ++ " restored!") success
           (setContacts (contacts s ++ [d]) s))
  | None => s
  end.

(** ** The forms *)

(** The [formData] state of a form: the raw text of each input. *)
Module Form.
Record Data := mk {
  name : string;
  email : string;
  phone : string;
  location : string;
  address : string;
  birthday : string
}.
End Form.

(** The [newErrors] object of [validateForm]: a message for each field that
    has one. *)
Module Errors.
Record t := mk {
  name : option string;
  email : option string;
  phone : option string
}.

(** [Object.keys(newErrors).length === 0] *)
Definition isEmpty (e : t) : bool :=
  match name e, email e, phone e with
  | None, None, None => true
  | _, _, _ => false
  end.
End Errors.

Module AddContactForm.

Definition validateForm (existingContacts : list Contact)
           (formData : Form.Data) : Errors.t :=
  Errors.mk
    (if negb (JS.truthy (JS.trim (Form.name formData)))
     then Some "Name is required" else None)
    (if negb (JS.truthy (JS.trim (Form.email formData)))
     then Some "Email is required"
     else if negb (JS.emailTest (Form.email formData))
          then Some "Email is invalid" else None)
    (if negb (JS.truthy (JS.trim (Form.phone formData)))
     then Some "Phone is required"
     else
       let phoneExists :=
         existsb (fun contact =>
                    String.eqb (phone contact) (JS.trim (Form.phone formData)))
                 existingContacts in
       if phoneExists then Some "Phone number already exists" else None).

(** The record built on a valid submission; [now] is the value of
    [Date.now()]. *)
Definition newContact (now : Z) (formData : Form.Data) : Contact :=
  mkContact now
            (JS.trim (Form.name formData))
            (JS.trim (Form.email formData))
            (JS.trim (Form.phone formData))
            (JS.orNull (JS.trim (Form.location formData)))
            (JS.orNull (JS.trim (Form.address formData)))
            (JS.orNull (Form.birthday formData))
            false.

(** [handleSubmit], with the props of the form as arguments.  When
    validation fails only the form's own [errors] state changes. *)
Definition handleSubmit (onAddContact : Contact -> State -> State)
           (existingContacts : list Contact) (onClose : State -> State)
           (now : Z) (formData : Form.Data) (s : State) : State :=
  if Errors.isEmpty (validateForm existingContacts formData)
  then onClose (onAddContact (newContact now formData) s)
  else s.

End AddContactForm.

Module EditContactForm.

Definition validateForm (existingContacts : list Contact)
           (formData : Form.Data) : Errors.t :=
  Errors.mk
    (if negb (JS.truthy (JS.trim (Form.name formData)))
     then Some "Name is required" else None)
    (if negb (JS.truthy (JS.trim (Form.email formData)))
     then Some "Email is required"
     else if negb (JS.emailTest (Form.email formData))
          then Some "Email is invalid" else None)
    (if negb (JS.truthy (JS.trim (Form.phone formData)))
     then Some "Phone is required"
     else
       let phoneExists :=
         existsb (fun existingContact =>
                    String.eqb (phone existingContact)
                               (JS.trim (Form.phone formData)))
                 existingContacts in
       if phoneExists then Some "Phone number already exists" else None).

(** [{ ...contact, name: ..., ..., birthday: ... }]: the id and the
    favourite flag come from the [contact] prop. *)
Definition updatedContact (contact : Contact) (formData : Form.Data)
  : Contact :=
  mkContact (id contact)
            (JS.trim (Form.name formData))
            (JS.trim (Form.email formData))
            (JS.trim (Form.phone formData))
            (JS.orNull (JS.trim (Form.location formData)))
            (JS.orNull (JS.trim (Form.address formData)))
            (JS.orNull (Form.birthday formData))
            (isFavorite contact).

Definition handleSubmit (contact : Contact)
           (onUpdateContact : Contact -> State -> State)
           (existingContacts : list Contact)
           (formData : Form.Data) (s : State) : State :=
  if Errors.isEmpty (validateForm existingContacts formData)
  then onUpdateContact (updatedContact contact formData) s
  else s.

End EditContactForm.

(** The message stored for a phone number that is already taken. *)
Definition DuplicatePhone : option string := Some "Phone number already exists".

(** Validation as [App] wires it: the add form receives every contact, the
    edit form receives [contacts.filter(c => c.id !== contactToEdit.id)]. *)
Definition validate (candidate : Form.Data) (activeContacts : list Contact)
           (excludeId : option Z) : Errors.t :=
  match excludeId with
  | None => AddContactForm.validateForm activeContacts candidate
  | Some i =>
      EditContactForm.validateForm
        (filter (fun c => negb (id c =? i)%Z) activeContacts) candidate
  end.

(** ** User events *)

(** What can happen to the rendered page: a control is activated, or the
    oldest timer fires. *)
Inductive Event :=
| SearchChange (query : string)
| ClickAddNew
| CloseAddForm
| SubmitAddForm (now : Z) (formData : Form.Data)
| ToggleFavorite (contactId : Z)
| ClickDelete (contactId : Z)
| ConfirmDelete
| CancelDelete
| ShowInfo (contactId : Z)
| CloseInfo
| ClickEdit
| CloseEditForm
| SubmitEditForm (formData : Form.Data)
| ClickUndo
| TimerExpires.

(** The UNDO button is rendered under
    [toast.show && toast.type === 'delete' && deletedContact]. *)
Definition undoRendered (s : State) : bool :=
  show (toast s) && ToastType_eqb (type (toast s)) delete &&
  match deletedContact s with Some _ => true | None => false end.

(** [dispatch] runs the handler that the JSX of [App] attaches to the
    control, when the control is rendered in state [s]; an event on a control
    that is not rendered changes nothing.  The controls of a contact card
    carry the id of the card; their handlers look the id up themselves. *)
Definition dispatch (e : Event) (s : State) : State :=
  match e with
  | SearchChange q => handleSearchChange q s
  | ClickAddNew => handleShowAddForm s
  | CloseAddForm => if showAddForm s then handleCloseAddForm s else s
  | SubmitAddForm now formData =>
      if showAddForm s
      then AddContactForm.handleSubmit handleAddContact (contacts s)
                                       handleCloseAddForm now formData s
      else s
  | ToggleFavorite i => handleToggleFavorite i s
  | ClickDelete i => handleDeleteContact i s
  | ConfirmDelete =>
      match showConfirmDialog s, contactToDelete s with
      | true, Some _ => handleConfirmDelete s
      | _, _ => s
      end
  | CancelDelete =>
      match showConfirmDialog s, contactToDelete s with
      | true, Some _ => handleCancelDelete s
      | _, _ => s
      end
  | ShowInfo i => handleShowInfo i s
  | CloseInfo =>
      match showInfoDialog s, contactToShow s with
      | true, Some _ => handleCloseInfo s
      | _, _ => s
      end
  | ClickEdit =>
      match showInfoDialog s, contactToShow s with
      | true, Some c => handleShowEditForm (id c) (handleCloseInfo s)
      | _, _ => s
      end
  | CloseEditForm =>
      match showEditForm s, contactToEdit s with
      | true, Some _ => handleCloseEditForm s
      | _, _ => s
      end
  | SubmitEditForm formData =>
      match showEditForm s, contactToEdit s with
      | true, Some c =>
          EditContactForm.handleSubmit
            c handleUpdateContact
            (filter (fun x => negb (id x =? id c)%Z) (contacts s))
            formData s
      | _, _ => s
      end
  | ClickUndo => if undoRendered s then handleUndoDelete s else s
  | TimerExpires => timerExpires s
  end.

Fixpoint run (events : list Event) (s : State) : State :=
  match events with
  | [] => s
  | e :: rest => run rest (dispatch e s)
  end.

(** Two conditions on an event in a state: a submitted add carries a
    timestamp that no active contact has as its id, and the edit form is not
    submitted while the delete confirmation is open. *)
Definition admissible (e : Event) (s : State) : bool :=
  match e with
  | SubmitAddForm now _ => negb (existsb (fun c => (id c =? now)%Z) (contacts s))
  | SubmitEditForm _ => negb (showConfirmDialog s)
  | _ => true
  end.

Fixpoint admissibleRun (events : list Event) (s : State) : bool :=
  match events with
  | [] => true
  | e :: rest => admissible e s && admissibleRun rest (dispatch e s)
  end.

(** The ids handed out by the add form during a run, oldest first. *)
Fixpoint issuedIds (events : list Event) (s : State) : list Z :=
  match events with
  | [] => []
  | e :: rest =>
      match e with
      | SubmitAddForm now formData =>
          if showAddForm s &&
             Errors.isEmpty (AddContactForm.validateForm (contacts s) formData)
          then [now] else []
      | _ => []
      end ++ issuedIds rest (dispatch e s)
  end.

(** The values of [Date.now()] read by the submissions of a run. *)
Fixpoint clockReadings (events : list Event) : list Z :=
  match events with
  | [] => []
  | SubmitAddForm now _ :: rest => now :: clockReadings rest
  | _ :: rest => clockReadings rest
  end.

(** ** Comparators *)

(** A consistent comparator, as ECMAScript requires of the function given to
    [Array.prototype.sort] for the result to be defined: comparing equal is an
    equivalence, and comparing below and comparing above are transitive. *)
Record Consistent {A : Type} (cmp : A -> A -> Z) : Prop := mkConsistent {
  cmp_refl : forall a, cmp a a = 0%Z;
  cmp_sym : forall a b, cmp a b = 0%Z -> cmp b a = 0%Z;
  cmp_trans_eq : forall a b c, cmp a b = 0%Z -> cmp b c = 0%Z -> cmp a c = 0%Z;
  cmp_trans_lt : forall a b c, (cmp a b < 0)%Z -> (cmp b c < 0)%Z -> (cmp a c < 0)%Z;
  cmp_trans_gt : forall a b c, (cmp a b > 0)%Z -> (cmp b c > 0)%Z -> (cmp a c > 0)%Z
}.

Definition ofComparison (c : comparison) : Z :=
  match c with
  | Lt => (-1)%Z
  | Eq => 0%Z
  | Gt => 1%Z
  end.

(** Capital and small letters of the ASCII range. *)
Definition isCapital (c : codeUnit) : bool := ((65 <=? c) && (c <=? 90))%N.

Definition isSmall (c : codeUnit) : bool := ((97 <=? c) && (c <=? 122))%N.

Definition swapCaseChar (c : codeUnit) : codeUnit :=
  if isCapital c then (c + 32)%N
  else if isSmall c then (c - 32)%N
  else c.

Fixpoint swapCase (s : string) : string :=
  match s with
  | EmptyString => EmptyString
  | String c s' => String (swapCaseChar c) (swapCase s')
  end.

Definition lowerChar (c : codeUnit) : codeUnit :=
  if isCapital c then (c + 32)%N else c.

(** What [toLowerCase] gives for a string of ASCII characters: every capital
    letter [A]..[Z] becomes its small letter, every other character stays. *)
Fixpoint asciiLower (s : string) : string :=
  match s with
  | EmptyString => EmptyString
  | String c s' => String (lowerChar c) (asciiLower s')
  end.

Fixpoint isAscii (s : string) : bool :=
  match s with
  | EmptyString => true
  | String c s' => (c <? 128)%N && isAscii s'
  end.

(** A [toLowerCase] that does to a string of ASCII characters what
    ECMAScript prescribes there. *)
Definition lowersAscii (toLowerCase : string -> string) : Prop :=
  forall s, isAscii s = true -> toLowerCase s = asciiLower s.

(** Comparison by a first key [f], then by a second key [g], both in the
    order of the code units. *)
Definition lexCompare (f g : string -> string) (a b : string) : Z :=
  match String.compare (f a) (f b) with
  | Eq => ofComparison (String.compare (g a) (g b))
  | c => ofComparison c
  end.

(** One comparator a host may provide as [localeCompare]: the first
    difference that is not a difference of letter case decides; between
    strings that differ in case only, the first difference decides and the
    lower-case letter goes first (the order of the Unicode collation
    algorithm on strings of ASCII letters). *)
Definition tertiaryCompare (a b : string) : Z :=
  lexCompare asciiLower swapCase a b.

(** The order that a comparator induces on the records of a list. *)
Definition notAbove (cmp : Contact -> Contact -> Z) (a b : Contact) : Prop :=
  (cmp a b <= 0)%Z.

(** *** A lower-casing with the final sigma *)







(** ** Containment up to letter case *)

(** Two code units are the same character up to letter case: they are equal,
    or one is a capital letter [A]..[Z] and the other is its small letter. *)
Definition sameLetter (a b : codeUnit) : bool :=
  ((a =? b) || isCapital a && (b =? a + 32) || isCapital b && (a =? b + 32))%N.

Fixpoint equalIgnoringCase (s t : string) : bool :=
  match s, t with
  | EmptyString, EmptyString => true
  | String a s', String b t' => sameLetter a b && equalIgnoringCase s' t'
  | _, _ => false
  end.


(** ** The only record with its id *)

(** [c] is in [l] and no other record of [l] has the id of [c]. *)
Definition onlyWithId (c : Contact) (l : list Contact) : Prop :=
  filter (fun x => (id x =? id c)%Z) l = [c].

(** ** The email pattern, as a relation *)

Fixpoint allNonSpace (s : string) : bool :=
  match s with
  | EmptyString => true
  | String c s' => JS.nonSpace c && allNonSpace s'
  end.

(** Somewhere in [s] stand a non-empty run of non-space characters, an
    ["@"], another such run, a ["."] and a third such run: what
    [/\S+@\S+\.\S+/] matches. *)
Definition matchesEmailPattern (s : string) : Prop :=
  exists pre loc dom tld post,
    s = (pre ++ loc ++ "@" ++ dom ++ "." ++ tld ++ post)%js /\
    loc <> "" /\ dom <> "" /\ tld <> "" /\
    allNonSpace loc = true /\ allNonSpace dom = true /\ allNonSpace tld = true.

(** ** The invariant of the collection *)

(** A phone number that is stored without white space around it. *)
Definition storedTrimmed (c : Contact) : Prop := JS.trim (phone c) = phone c.

(** What every reachable state satisfies: ids and stored phones are pairwise
    distinct and the phones are stored trimmed; while the confirmation dialog
    is open, the record it shows still has the id and the phone of an active
    record; while the UNDO button is offered, the pending record could be put
    back without a clash. *)
Record Inv (s : State) : Prop := mkInv {
  inv_ids : NoDup (map id (contacts s));
  inv_phones : NoDup (map phone (contacts s));
  inv_trimmed : Forall storedTrimmed (contacts s);
  inv_dialog :
    showConfirmDialog s = true ->
    forall d, contactToDelete s = Some d ->
              exists c, In c (contacts s) /\ id c = id d /\ phone c = phone d;
  inv_pending :
    undoRendered s = true ->
    forall d, deletedContact s = Some d ->
              storedTrimmed d /\
              ~ In (phone d) (map phone (contacts s)) /\
              ~ In (id d) (map id (contacts s))
}.

(** ** Sample data *)

Definition ann : Contact :=
  mkContact 1 "Ann Lee" "ann@example.com" "555-0100" None None None false.

Definition bob : Contact :=
  mkContact 2 "Bob Ray" "bob@example.com" "555-0101" (Some "Austin") None None false.

(** Two records whose names differ in letter case only. *)
Definition upperAmy : Contact :=
  mkContact 3 "Amy" "amy@example.com" "555-0102" None None None false.

Definition lowerAmy : Contact :=
  mkContact 4 "amy" "amy2@example.com" "555-0103" None None None false.



(** A record whose id no seed contact has. *)
Definition zed : Contact :=
  mkContact 99 "Zed" "zed@example.com" "555-0199" None None None false.

(** [ann] is pending deletion and the confirmation dialog is open for
    [bob]. *)
Definition secondDeletePending : State :=
  run [ClickDelete 1; ConfirmDelete; ClickDelete 2] (initialState [ann; bob]).

(** A seed record whose phone number was stored with a leading space. *)
Definition spaced : Contact :=
  mkContact 5 "Sam Poe" "sam@example.com" " 555-0100" None None None false.

(** What a user types to add a contact with the phone number 555-0100. *)
Definition eveForm : Form.Data :=
  Form.mk "Eve Fox" "eve@example.com" "555-0100" "" "" "".

Definition ianForm : Form.Data :=
  Form.mk "Ian Orr" "ian@example.com" " 555-0177 " "Oslo" "" "1990-01-15".

(** Two contacts added in the same millisecond. *)
Definition twoAddsOneReading : State :=
  run [ClickAddNew; SubmitAddForm 1700000000000 ianForm;
       ClickAddNew; SubmitAddForm 1700000000000 eveForm]
      (initialState [bob]).

(** Ann is deleted and restored by UNDO, then Bob is deleted. *)
Definition deleteUndoDelete : list Event :=
  [ClickDelete 1; ConfirmDelete; ClickUndo; ClickDelete 2; ConfirmDelete].

(** An edit that gives a contact the phone number 555-0142, and one that
    gives a contact the phone number 555-0100. *)
Definition movesForm : Form.Data :=
  Form.mk "Ann Lee" "ann@example.com" "555-0142" "" "" "".

Definition takesForm : Form.Data :=
  Form.mk "Bob Ray" "bob@example.com" "555-0100" "Austin" "" "".

(** A second seed record with the id of [ann]. *)
Definition annTwin : Contact :=
  mkContact 1 "Ann Twin" "twin@example.com" "555-0150" None None None false.

(** A session that deletes and restores a contact, adds two, edits one and
    lets a timer expire. *)
Definition sampleSession : list Event :=
  [ClickDelete 1; ConfirmDelete; ClickUndo;
   ClickAddNew; SubmitAddForm 1700000000000 eveForm;
   SubmitAddForm 1700000000001 ianForm;
   ToggleFavorite 2; TimerExpires;
   ShowInfo 2; ClickEdit; SubmitEditForm movesForm;
   ClickDelete 1700000000001; ConfirmDelete].

(** ** Further parts of the components *)

(** [favoriteCount] of [App], shown by [ContactInsights]:
    [contacts.filter(c => c.isFavorite).length]. *)
Definition favoriteCount (s : State) : nat :=
  List.length (filter isFavorite (contacts s)).

(** [x || ''] for a field that may be [null]. *)
Definition orEmpty (o : option string) : string :=
  match o with
  | Some s => s
  | None => ""
  end.

(** The effect of [EditContactForm] that fills [formData] from the [contact]
    prop. *)
Definition prefill (contact : Contact) : Form.Data :=
  Form.mk (name contact) (email contact) (phone contact)
          (orEmpty (location contact)) (orEmpty (address contact))
          (orEmpty (birthday contact)).

(** *** The state that a form keeps for itself *)

(** The [name] attribute of the input that changed. *)
Inductive Field :=
| FieldName | FieldEmail | FieldPhone
| FieldLocation | FieldAddress | FieldBirthday.

(** [{ ...prev, [name]: value }] on [formData]. *)
Definition setField (f : Field) (value : string) (d : Form.Data) : Form.Data :=
  match f with
  | FieldName =>
      Form.mk value (Form.email d) (Form.phone d)
              (Form.location d) (Form.address d) (Form.birthday d)
  | FieldEmail =>
      Form.mk (Form.name d) value (Form.phone d)
              (Form.location d) (Form.address d) (Form.birthday d)
  | FieldPhone =>
      Form.mk (Form.name d) (Form.email d) value
              (Form.location d) (Form.address d) (Form.birthday d)
  | FieldLocation =>
      Form.mk (Form.name d) (Form.email d) (Form.phone d)
              value (Form.address d) (Form.birthday d)
  | FieldAddress =>
      Form.mk (Form.name d) (Form.email d) (Form.phone d)
              (Form.location d) value (Form.birthday d)
  | FieldBirthday =>
      Form.mk (Form.name d) (Form.email d) (Form.phone d)
              (Form.location d) (Form.address d) value
  end.

Definition getField (f : Field) (d : Form.Data) : string :=
  match f with
  | FieldName => Form.name d
  | FieldEmail => Form.email d
  | FieldPhone => Form.phone d
  | FieldLocation => Form.location d
  | FieldAddress => Form.address d
  | FieldBirthday => Form.birthday d
  end.

(** [errors[name]]: only the three required fields ever get a message. *)
Definition getError (f : Field) (e : Errors.t) : option string :=
  match f with
  | FieldName => Errors.name e
  | FieldEmail => Errors.email e
  | FieldPhone => Errors.phone e
  | _ => None
  end.

(** A message is rendered under [errors.x && ...]: when it is there and is
    not the empty string. *)
Definition shown (e : option string) : bool :=
  match e with
  | Some msg => JS.truthy msg
  | None => false
  end.

(** [{ ...prev, [name]: '' }] on [errors], for a field that has a message. *)
Definition clearError (f : Field) (e : Errors.t) : Errors.t :=
  match f with
  | FieldName => Errors.mk (Some "") (Errors.email e) (Errors.phone e)
  | FieldEmail => Errors.mk (Errors.name e) (Some "") (Errors.phone e)
  | FieldPhone => Errors.mk (Errors.name e) (Errors.email e) (Some "")
  | _ => e
  end.

Module FormState.
Record t := mk {
  formData : Form.Data;
  errors : Errors.t
}.
End FormState.

Definition emptyFormData : Form.Data := Form.mk "" "" "" "" "" "".

Definition noErrors : Errors.t := Errors.mk None None None.

(** A form as it is mounted: empty fields, no message. *)
Definition mountedForm : FormState.t := FormState.mk emptyFormData noErrors.

(** [handleInputChange] of both forms: the field takes the typed value and a
    message of that field, if one is there, is blanked. *)
Definition handleInputChange (f : Field) (value : string) (st : FormState.t)
  : FormState.t :=
  FormState.mk
    (setField f value (FormState.formData st))
    (if shown (getError f (FormState.errors st))
     then clearError f (FormState.errors st)
     else FormState.errors st).

(** What [handleSubmit] of [AddContactForm] does to the form's own state:
    [validateForm] stores its messages; an accepted submission then resets
    the fields and the messages. *)
Definition addFormSubmitted (existingContacts : list Contact) (st : FormState.t)
  : FormState.t :=
  let newErrors :=
    AddContactForm.validateForm existingContacts (FormState.formData st) in
  if Errors.isEmpty newErrors
  then FormState.mk emptyFormData noErrors
  else FormState.mk (FormState.formData st) newErrors.

(** [handleCancel] of [AddContactForm]. *)
Definition addFormCancelled (st : FormState.t) : FormState.t :=
  FormState.mk emptyFormData noErrors.

(** What happens inside the add form while it is mounted. *)
Inductive FormEvent :=
| Input (f : Field) (value : string)
| Submit
| Cancel.

Definition formStep (existingContacts : list Contact) (e : FormEvent)
           (st : FormState.t) : FormState.t :=
  match e with
  | Input f value => handleInputChange f value st
  | Submit => addFormSubmitted existingContacts st
  | Cancel => addFormCancelled st
  end.

Fixpoint formRun (existingContacts : list Contact) (events : list FormEvent)
         (st : FormState.t) : FormState.t :=
  match events with
  | [] => st
  | e :: rest => formRun existingContacts rest (formStep existingContacts e st)
  end.

(** *** Conditions and vocabulary of the further properties *)

Fixpoint allSpace (s : string) : bool :=
  match s with
  | EmptyString => true
  | String c s' => JS.isWhiteSpace c && allSpace s'
  end.

Definition isSome {A : Type} (o : option A) : bool :=
  match o with Some _ => true | None => false end.

(** A submitted add carries a timestamp that no active contact has as its
    id. *)
Definition freshAdd (e : Event) (s : State) : bool :=
  match e with
  | SubmitAddForm now _ => negb (existsb (fun c => (id c =? now)%Z) (contacts s))
  | _ => true
  end.

Fixpoint freshAdds (events : list Event) (s : State) : bool :=
  match events with
  | [] => true
  | e :: rest => freshAdd e s && freshAdds rest (dispatch e s)
  end.

(** An optional text as the forms store it: [null], or a text that is not
    empty. *)
Definition presentText (o : option string) : Prop :=
  forall s, o = Some s -> s <> "".

(** A record as the forms store it: name, email and phone are trimmed and not
    empty, the email passes the email test, location and address are [null]
    or trimmed and not empty, the birthday is [null] or not empty. *)
Record wellFormed (c : Contact) : Prop := mkWellFormed {
  wf_name : name c <> "" /\ JS.trim (name c) = name c;
  wf_email : email c <> "" /\ JS.trim (email c) = email c /\
             JS.emailTest (email c) = true;
  wf_phone : phone c <> "" /\ JS.trim (phone c) = phone c;
  wf_location : presentText (location c) /\
                forall s, location c = Some s -> JS.trim s = s;
  wf_address : presentText (address c) /\
               forall s, address c = Some s -> JS.trim s = s;
  wf_birthday : presentText (birthday c)
}.

(** A toast on screen has a timer that will hide it, and a pending deletion
    has a delete timer that will discard it. *)
Definition timersCover (s : State) : Prop :=
  (show (toast s) = true -> timers s <> []) /\
  (isSome (deletedContact s) = true -> In delete (timers s)).

(** The ids of the collection are pairwise distinct, and while the UNDO
    button is offered the pending record's id is not among them. *)
Definition idsDistinct (s : State) : Prop :=
  NoDup (map id (contacts s)) /\
  (undoRendered s = true ->
   forall d, deletedContact s = Some d -> ~ In (id d) (map id (contacts s))).

(** No record that the state holds, in the collection or in a dialog or in
    the pending slot, is a favourite. *)
Definition noFavorite (s : State) : Prop :=
  Forall (fun c => isFavorite c = false) (contacts s) /\
  (forall d, deletedContact s = Some d -> isFavorite d = false) /\
  (forall d, contactToDelete s = Some d -> isFavorite d = false) /\
  (forall d, contactToEdit s = Some d -> isFavorite d = false).

Definition isToggle (e : Event) : bool :=
  match e with
  | ToggleFavorite _ => true
  | _ => false
  end.

(** [bob] is a favourite and the edit form is open on him. *)
Definition editOpenOnBob : State :=
  run [ToggleFavorite 2; ShowInfo 2; ClickEdit] (initialState [ann; bob]).

(** Every message that a form shows is the one that validation gives for the
    text that is in the field now. *)
Definition messagesCurrent (existingContacts : list Contact) (st : FormState.t)
  : Prop :=
  forall f,
    shown (getError f (FormState.errors st)) = true ->
    getError f (FormState.errors st) =
    getError f (AddContactForm.validateForm existingContacts
                                            (FormState.formData st)).

(** ** Facts about the string primitives *)

Example trim_strips_both_ends :
  JS.trim (String 9 " 555 0100  ") = "555 0100" /\ JS.trim "   " = "".
Proof. split; reflexivity. Qed.

Example emailTest_samples :
  JS.emailTest "ann@example.com" = true /\
  JS.emailTest "see ann@example.com now" = true /\
  JS.emailTest "a@..c" = true /\
  JS.emailTest "ann@example" = false /\
  JS.emailTest "@example.com" = false /\
  JS.emailTest "ann @example.com" = false /\
  JS.emailTest "ann@.com" = false /\
  JS.emailTest "ann@example." = false.
Proof. repeat split; reflexivity. Qed.

Example includes_samples :
  JS.includes (asciiLower "Amy Adams") (asciiLower "AM") = true /\
  JS.includes (asciiLower "Bob") (asciiLower "am") = false /\
  JS.includes "Bob" "" = true.
Proof. repeat split; reflexivity. Qed.

Example isWhiteSpace_samples :
  JS.isWhiteSpace 0xA0 = true /\ JS.isWhiteSpace 0x2003 = true /\
  JS.isWhiteSpace 0xFEFF = true /\ JS.isWhiteSpace 0x85 = false /\
  JS.isWhiteSpace 0x180E = false /\ JS.isWhiteSpace 0x200B = false.
Proof. repeat split; reflexivity. Qed.

Lemma string_eqb_eq (s t : string) : String.eqb s t = true <-> s = t.
Proof.
  revert t. induction s as [|a s IH]; intros [|b t]; simpl;
    try (split; [discriminate|congruence]); [tauto|].
  rewrite andb_true_iff, N.eqb_eq, IH. split.
  - now intros [-> ->].
  - intros [= -> ->]. tauto.
Qed.

Lemma string_eqb_refl (s : string) : String.eqb s s = true.
Proof. now apply string_eqb_eq. Qed.

Lemma string_eqb_spec (s t : string) : reflect (s = t) (String.eqb s t).
Proof. apply iff_reflect. symmetry. apply string_eqb_eq. Qed.

Lemma trimStart_idempotent (s : string) :
  JS.trimStart (JS.trimStart s) = JS.trimStart s.
Proof.
  induction s as [|c s IH]; simpl; [reflexivity|].
  destruct (JS.isWhiteSpace c) eqn:E; [exact IH|].
  simpl. now rewrite E.
Qed.

Lemma trimEnd_idempotent (s : string) :
  JS.trimEnd (JS.trimEnd s) = JS.trimEnd s.
Proof.
  induction s as [|c s IH]; simpl; [reflexivity|].
  destruct (JS.trimEnd s) as [|d r] eqn:E.
  - destruct (JS.isWhiteSpace c) eqn:W; simpl; [reflexivity|].
    now rewrite W.
  - simpl in *. now rewrite IH.
Qed.

(** Trimming the end of a string that starts with a character that is not
    white space leaves the start in place. *)
Lemma trimStart_trimEnd (s : string) :
  JS.trimStart s = s -> JS.trimStart (JS.trimEnd s) = JS.trimEnd s.
Proof.
  destruct s as [|c s]; simpl; [reflexivity|].
  destruct (JS.isWhiteSpace c) eqn:W.
  - intros H. exfalso.
    assert (L : forall t, (String.length (JS.trimStart t) <= String.length t)%nat).
    { induction t as [|x t IHt]; simpl; [lia|].
      destruct (JS.isWhiteSpace x); simpl; lia. }
    specialize (L s). rewrite H in L. simpl in L. lia.
  - intros _. destruct (JS.trimEnd s); simpl; now rewrite W.
Qed.

Lemma trim_idempotent (s : string) : JS.trim (JS.trim s) = JS.trim s.
Proof.
  unfold JS.trim.
  rewrite (trimStart_trimEnd (JS.trimStart s) (trimStart_idempotent s)).
  apply trimEnd_idempotent.
Qed.

Lemma prefix_spec (t s : string) :
  prefix t s = true <-> exists post, s = (t ++ post)%js.
Proof.
  revert s. induction t as [|c t IH]; intros s; simpl.
  - destruct s; split; eauto.
  - destruct s as [|d s].
    + split; [discriminate|]. intros [post H]. discriminate.
    + simpl. destruct (N.eqb_spec c d) as [->|N]; simpl.
      * rewrite IH. split; intros [post H]; exists post.
        -- now rewrite H.
        -- now inversion H.
      * split; [discriminate|]. intros [post H]. inversion H. congruence.
Qed.

(** [includes] decides occurrence as a contiguous substring. *)
Lemma includes_spec (s t : string) :
  JS.includes s t = true <-> exists pre post, s = (pre ++ t ++ post)%js.
Proof.
  induction s as [|c s IH].
  - change (JS.includes "" t) with (prefix t "" || false).
    rewrite orb_false_r, prefix_spec. split.
    + intros [post H]. now exists "", post.
    + intros [pre [post H]]. destruct pre; simpl in H; [eauto|discriminate].
  - change (JS.includes (String c s) t)
      with (prefix t (String c s) || JS.includes s t).
    rewrite orb_true_iff, prefix_spec, IH. split.
    + intros [[post H]|[pre [post H]]].
      * now exists "", post.
      * exists (String c pre), post. simpl. now rewrite H.
    + intros [pre [post H]]. destruct pre as [|d pre]; simpl in H.
      * left. eauto.
      * right. inversion H. eauto.
Qed.

(** ** The email test decides the pattern *)

Lemma append_assoc (a b c : string) :
  ((a ++ b) ++ c = a ++ (b ++ c))%js.
Proof. induction a as [|x a IH]; simpl; [reflexivity|]. now rewrite IH. Qed.

Lemma append_empty_r (a : string) : (a ++ "")%js = a.
Proof. induction a as [|x a IH]; simpl; [reflexivity|]. now rewrite IH. Qed.

Lemma allNonSpace_app (a b : string) :
  allNonSpace (a ++ b) = allNonSpace a && allNonSpace b.
Proof.
  induction a as [|x a IH]; simpl; [reflexivity|].
  now rewrite IH, andb_assoc.
Qed.

(** A non-empty string ends with a character. *)
Lemma string_last (s : string) :
  s <> "" -> exists s' c, s = (s' ++ String c "")%js.
Proof.
  induction s as [|x s IH]; intros N; [contradiction|].
  destruct s as [|y s].
  - now exists "", x.
  - destruct IH as [s' [c E]]; [discriminate|].
    exists (String x s'), c. simpl. now rewrite E.
Qed.

Lemma emailTest_skip (a s : string) :
  JS.emailTest s = true -> JS.emailTest (a ++ s) = true.
Proof.
  intros H. induction a as [|x a IH]; [exact H|].
  simpl. rewrite IH. apply orb_true_r.
Qed.

Lemma domain_complete (dom : string) (d : codeUnit) (post : string) :
  allNonSpace dom = true -> JS.nonSpace d = true ->
  JS.domain (dom ++ String JS.full_stop (String d post)) = true.
Proof.
  intros A D. induction dom as [|x dom IH]; simpl.
  - now rewrite D.
  - simpl in A. apply andb_true_iff in A. destruct A as [Ax A].
    rewrite Ax, (IH A). simpl. apply orb_true_r.
Qed.

Lemma domain_sound (s : string) :
  JS.domain s = true ->
  exists dom d post,
    s = (dom ++ String JS.full_stop (String d post))%js /\
    allNonSpace dom = true /\ JS.nonSpace d = true.
Proof.
  induction s as [|x s IH]; simpl; [discriminate|].
  intros H. apply andb_true_iff in H. destruct H as [Hx H].
  apply orb_true_iff in H. destruct H as [H|H].
  - apply andb_true_iff in H. destruct H as [E H].
    apply N.eqb_eq in E. subst x.
    destruct s as [|d post]; [discriminate|]. simpl in H.
    now exists "", d, post.
  - destruct (IH H) as [dom [d [post [E [A D]]]]].
    exists (String x dom), d, post. simpl. now rewrite E, Hx, A.
Qed.

Lemma emailTest_sound (s : string) :
  JS.emailTest s = true -> matchesEmailPattern s.
Proof.
  induction s as [|c s IH]; simpl; [discriminate|].
  intros H. apply orb_true_iff in H. destruct H as [H|H].
  - apply andb_true_iff in H. destruct H as [Hc H].
    destruct s as [|a rest]; [discriminate|].
    apply andb_true_iff in H. destruct H as [E H].
    apply N.eqb_eq in E. subst a.
    destruct rest as [|x rest]; [discriminate|]. simpl in H.
    apply andb_true_iff in H. destruct H as [Hx H].
    destruct (domain_sound _ H) as [dom [d [post [E [A D]]]]].
    exists "", (String c ""), (String x dom), (String d ""), post.
    simpl. rewrite E, Hc, Hx, A, D. repeat split; congruence.
  - destruct (IH H) as [pre [loc [dom [tld [post [E R]]]]]].
    exists (String c pre), loc, dom, tld, post. simpl. now rewrite E.
Qed.

Lemma emailTest_complete (s : string) :
  matchesEmailPattern s -> JS.emailTest s = true.
Proof.
  intros [pre [loc [dom [tld [post [E [Nl [Nd [Nt [Al [Ad At]]]]]]]]]]].
  subst s. apply emailTest_skip.
  destruct (string_last loc Nl) as [loc' [c ->]].
  rewrite append_assoc. apply emailTest_skip.
  rewrite allNonSpace_app in Al. apply andb_true_iff in Al.
  destruct Al as [_ Ac]. simpl in Ac. rewrite andb_true_r in Ac.
  destruct dom as [|x dom]; [contradiction|].
  destruct tld as [|d tld]; [contradiction|].
  simpl in Ad, At. apply andb_true_iff in Ad, At.
  destruct Ad as [Ax Ad], At as [Hd _].
  simpl. rewrite Ac, Ax. simpl.
  pose proof (domain_complete dom d (tld ++ post) Ad Hd) as D.
  unfold JS.full_stop in D. now rewrite D.
Qed.

(** [emailTest] is the test of the regular expression. *)
Lemma emailTest_spec (s : string) :
  JS.emailTest s = true <-> matchesEmailPattern s.
Proof. split; [apply emailTest_sound | apply emailTest_complete]. Qed.

(** ** Facts about the stable sort *)

Lemma insertSorted_perm cmp x l : Permutation (insertSorted cmp x l) (x :: l).
Proof.
  induction l as [|y l IH]; simpl; [apply Permutation_refl|].
  destruct (cmp x y <=? 0)%Z; [apply Permutation_refl|].
  eapply perm_trans; [apply perm_skip, IH | apply perm_swap].
Qed.

Lemma sort_perm cmp l : Permutation (sort cmp l) l.
Proof.
  induction l as [|x l IH]; simpl; [constructor|].
  eapply perm_trans; [apply insertSorted_perm | now apply perm_skip].
Qed.

Section ConsistentFacts.

Context {A : Type} (cmp : A -> A -> Z) (C : Consistent cmp).

Lemma cmp_lt_gt a b : (cmp a b < 0)%Z -> (cmp b a > 0)%Z.
Proof.
  intros H.
  destruct (Z.lt_trichotomy (cmp b a) 0) as [L|[E|G]]; [| |lia].
  - pose proof (cmp_trans_lt cmp C a b a H L) as T.
    rewrite (cmp_refl cmp C) in T. lia.
  - apply (cmp_sym cmp C) in E. lia.
Qed.

Lemma cmp_gt_lt a b : (cmp a b > 0)%Z -> (cmp b a < 0)%Z.
Proof.
  intros H.
  destruct (Z.lt_trichotomy (cmp b a) 0) as [L|[E|G]]; [lia| |].
  - apply (cmp_sym cmp C) in E. lia.
  - pose proof (cmp_trans_gt cmp C a b a H ltac:(lia)) as T.
    rewrite (cmp_refl cmp C) in T. lia.
Qed.

Lemma cmp_le_trans a b c :
  (cmp a b <= 0)%Z -> (cmp b c <= 0)%Z -> (cmp a c <= 0)%Z.
Proof.
  intros Hab Hbc.
  destruct (Z.lt_trichotomy (cmp a c) 0) as [L|[E|G]]; [lia|lia|].
  exfalso.
  assert (Hca : (cmp c a < 0)%Z) by (apply cmp_gt_lt; lia).
  destruct (Z.eq_dec (cmp a b) 0) as [Eab|Nab];
    destruct (Z.eq_dec (cmp b c) 0) as [Ebc|Nbc].
  - pose proof (cmp_trans_eq cmp C a b c Eab Ebc). lia.
  - assert (Lbc : (cmp b c < 0)%Z) by lia.
    pose proof (cmp_trans_lt cmp C b c a Lbc Hca) as T.
    apply (cmp_sym cmp C) in Eab. lia.
  - assert (Lab : (cmp a b < 0)%Z) by lia.
    pose proof (cmp_trans_lt cmp C c a b Hca Lab) as T.
    apply (cmp_sym cmp C) in Ebc. lia.
  - pose proof (cmp_trans_lt cmp C a b c ltac:(lia) ltac:(lia)). lia.
Qed.

End ConsistentFacts.

Section SortFacts.

Variable cmp : Contact -> Contact -> Z.
Hypothesis C : Consistent cmp.

Lemma insertSorted_sorted x l :
  StronglySorted (notAbove cmp) l -> StronglySorted (notAbove cmp) (insertSorted cmp x l).
Proof.
  induction 1 as [|y l S IH F]; simpl.
  - constructor; constructor.
  - destruct (cmp x y <=? 0)%Z eqn:E.
    + apply Z.leb_le in E. constructor; [now constructor|].
      constructor; [exact E|].
      eapply Forall_impl; [|exact F].
      intros z Hz. exact (cmp_le_trans cmp C x y z E Hz).
    + apply Z.leb_gt in E. constructor; [exact IH|].
      eapply Permutation_Forall.
      * apply Permutation_sym, insertSorted_perm.
      * constructor; [|exact F].
        pose proof (cmp_gt_lt cmp C x y ltac:(lia)). unfold notAbove. lia.
Qed.

Lemma sort_sorted l : StronglySorted (notAbove cmp) (sort cmp l).
Proof.
  induction l as [|x l IH]; simpl; [constructor|].
  now apply insertSorted_sorted.
Qed.

(** Insertion never moves a record past one that compares equal to it. *)
Lemma insertSorted_stable a x l :
  filter (fun b => (cmp a b =? 0)%Z) (insertSorted cmp x l) =
  filter (fun b => (cmp a b =? 0)%Z) (x :: l).
Proof.
  induction l as [|y l IH]; [reflexivity|].
  simpl insertSorted. destruct (cmp x y <=? 0)%Z eqn:E; [reflexivity|].
  apply Z.leb_gt in E.
  change (filter (fun b => (cmp a b =? 0)%Z) (y :: insertSorted cmp x l))
    with (if (cmp a y =? 0)%Z
          then y :: filter (fun b => (cmp a b =? 0)%Z) (insertSorted cmp x l)
          else filter (fun b => (cmp a b =? 0)%Z) (insertSorted cmp x l)).
  rewrite IH. simpl.
  destruct (cmp a x =? 0)%Z eqn:Ex; destruct (cmp a y =? 0)%Z eqn:Ey;
    try reflexivity.
  exfalso. apply Z.eqb_eq in Ex, Ey.
  apply (cmp_sym cmp C) in Ex.
  pose proof (cmp_trans_eq cmp C x a y Ex Ey). lia.
Qed.

Lemma sort_stable a l :
  filter (fun b => (cmp a b =? 0)%Z) (sort cmp l) =
  filter (fun b => (cmp a b =? 0)%Z) l.
Proof.
  induction l as [|x l IH]; [reflexivity|].
  simpl sort. rewrite insertSorted_stable. simpl. now rewrite IH.
Qed.

(** Two sorted lists that hold, for every record, the same records comparing
    equal to it in the same order, are the same list. *)
Lemma stable_sorted_unique (l1 : list Contact) :
  forall l2,
    StronglySorted (notAbove cmp) l1 ->
    StronglySorted (notAbove cmp) l2 ->
    (forall a, filter (fun b => (cmp a b =? 0)%Z) l1 =
               filter (fun b => (cmp a b =? 0)%Z) l2) ->
    l1 = l2.
Proof.
  induction l1 as [|a l1 IH]; intros l2 S1 S2 F.
  - destruct l2 as [|b l2]; [reflexivity|].
    specialize (F b). simpl in F. rewrite (cmp_refl cmp C) in F. discriminate.
  - destruct l2 as [|b l2].
    + specialize (F a). simpl in F. rewrite (cmp_refl cmp C) in F. discriminate.
    + inversion S1 as [|? ? S1' F1]; subst.
      inversion S2 as [|? ? S2' F2]; subst.
      rewrite Forall_forall in F1, F2.
      assert (Hab : (cmp a b <= 0)%Z).
      { assert (Hin : In b (filter (fun x => (cmp b x =? 0)%Z) (a :: l1))).
        { rewrite (F b). simpl. rewrite (cmp_refl cmp C). now left. }
        apply filter_In in Hin. destruct Hin as [[->|Hin] _].
        - rewrite (cmp_refl cmp C). lia.
        - exact (F1 b Hin). }
      assert (Hba : (cmp b a <= 0)%Z).
      { assert (Hin : In a (filter (fun x => (cmp a x =? 0)%Z) (b :: l2))).
        { rewrite <- (F a). simpl. rewrite (cmp_refl cmp C). now left. }
        apply filter_In in Hin. destruct Hin as [[->|Hin] _].
        - rewrite (cmp_refl cmp C). lia.
        - exact (F2 a Hin). }
      assert (E0 : cmp a b = 0%Z).
      { destruct (Z.eq_dec (cmp a b) 0) as [E|N]; [exact E|].
        pose proof (cmp_lt_gt cmp C a b ltac:(lia)). lia. }
      assert (E : a = b).
      { pose proof (F a) as Fa. simpl in Fa.
        rewrite (cmp_refl cmp C), E0 in Fa. simpl in Fa. congruence. }
      subst b. f_equal. apply IH; auto.
      intros x. specialize (F x). simpl in F.
      destruct (cmp x a =? 0)%Z; congruence.
Qed.

(** The stable insertion sort is the only arrangement that is sorted and
    keeps, for every record, the records comparing equal to it in their
    order: any stable sort gives the result of [sort]. *)
Lemma sort_unique (l l' : list Contact) :
  StronglySorted (notAbove cmp) l' ->
  (forall a, filter (fun b => (cmp a b =? 0)%Z) l' =
             filter (fun b => (cmp a b =? 0)%Z) l) ->
  l' = sort cmp l.
Proof.
  intros S F. apply stable_sorted_unique; [exact S | apply sort_sorted |].
  intros a. now rewrite F, sort_stable.
Qed.

End SortFacts.

(** ** The comparator of the view *)

Section CompareContacts.

Variable localeCompare : string -> string -> Z.
Hypothesis L : Consistent localeCompare.

Lemma compareContacts_consistent : Consistent (compareContacts localeCompare).
Proof.
  constructor; unfold compareContacts.
  - intros a. destruct (isFavorite a); simpl; apply (cmp_refl _ L).
  - intros a b. destruct (isFavorite a), (isFavorite b); simpl;
      try discriminate; apply (cmp_sym _ L).
  - intros a b c.
    destruct (isFavorite a), (isFavorite b), (isFavorite c); simpl;
      try discriminate; apply (cmp_trans_eq _ L).
  - intros a b c.
    destruct (isFavorite a), (isFavorite b), (isFavorite c); simpl;
      try lia; apply (cmp_trans_lt _ L).
  - intros a b c.
    destruct (isFavorite a), (isFavorite b), (isFavorite c); simpl;
      try lia; apply (cmp_trans_gt _ L).
Qed.

End CompareContacts.

(** ** [tertiaryCompare] is a consistent comparator *)

Lemma compare_eq_iff (s t : string) : String.compare s t = Eq <-> s = t.
Proof.
  revert t. induction s as [|a s IH]; intros [|b t]; simpl;
    try (split; [discriminate|congruence]); [tauto|].
  destruct (N.compare_spec a b) as [->| |].
  - rewrite IH. split; [now intros ->|]. now intros [= ->].
  - split; [discriminate|]. intros [= -> _]. lia.
  - split; [discriminate|]. intros [= -> _]. lia.
Qed.

Lemma compare_refl (s : string) : String.compare s s = Eq.
Proof. now apply compare_eq_iff. Qed.

Lemma compare_antisym (s t : string) :
  String.compare s t = CompOpp (String.compare t s).
Proof.
  revert t. induction s as [|a s IH]; intros [|b t]; simpl; try reflexivity.
  rewrite (N.compare_antisym a b).
  destruct (a ?= b)%N; simpl; auto.
Qed.

Lemma compare_lt_trans (a b c : string) :
  String.compare a b = Lt -> String.compare b c = Lt -> String.compare a c = Lt.
Proof.
  revert b c. induction a as [|x a IH]; intros [|y b] [|z c]; simpl;
    try congruence.
  destruct (x ?= y)%N eqn:E1; try discriminate;
    destruct (y ?= z)%N eqn:E2; try discriminate; intros H1 H2.
  - apply N.compare_eq in E1, E2. subst. rewrite N.compare_refl. eauto.
  - apply N.compare_eq in E1. subst. now rewrite E2.
  - apply N.compare_eq in E2. subst. now rewrite E1.
  - assert (E3 : (x ?= z)%N = Lt) by (eapply N.lt_trans; eassumption).
    now rewrite E3.
Qed.

Lemma compare_gt_lt (a b : string) :
  String.compare a b = Gt <-> String.compare b a = Lt.
Proof.
  rewrite (compare_antisym a b).
  destruct (String.compare b a); simpl; split; congruence.
Qed.

Section Lexicographic.

Variables f g : string -> string.

Lemma lexCompare_eq a b :
  lexCompare f g a b = 0%Z <-> f a = f b /\ g a = g b.
Proof.
  unfold lexCompare.
  destruct (String.compare (f a) (f b)) eqn:Ef.
  - apply compare_eq_iff in Ef.
    destruct (String.compare (g a) (g b)) eqn:Eg; simpl.
    + apply compare_eq_iff in Eg. tauto.
    + split; [discriminate|]. intros [_ H].
      apply compare_eq_iff in H. congruence.
    + split; [discriminate|]. intros [_ H].
      apply compare_eq_iff in H. congruence.
  - simpl. split; [discriminate|]. intros [H _].
    apply compare_eq_iff in H. congruence.
  - simpl. split; [discriminate|]. intros [H _].
    apply compare_eq_iff in H. congruence.
Qed.

Lemma lexCompare_lt a b :
  (lexCompare f g a b < 0)%Z <->
  String.compare (f a) (f b) = Lt \/
  (f a = f b /\ String.compare (g a) (g b) = Lt).
Proof.
  unfold lexCompare.
  destruct (String.compare (f a) (f b)) eqn:Ef.
  - apply compare_eq_iff in Ef.
    destruct (String.compare (g a) (g b)) eqn:Eg; simpl;
      split; try lia; try tauto; intros [H|[_ H]]; discriminate.
  - simpl. split; [tauto|lia].
  - simpl. split; [lia|]. intros [H|[H _]]; [discriminate|].
    apply compare_eq_iff in H. congruence.
Qed.

Lemma lexCompare_gt a b : (lexCompare f g a b > 0)%Z <-> (lexCompare f g b a < 0)%Z.
Proof.
  unfold lexCompare.
  rewrite (compare_antisym (f a) (f b)), (compare_antisym (g a) (g b)).
  destruct (String.compare (f b) (f a)); simpl;
    try destruct (String.compare (g b) (g a)); simpl; lia.
Qed.

Lemma lexCompare_lt_trans a b c :
  (lexCompare f g a b < 0)%Z -> (lexCompare f g b c < 0)%Z -> (lexCompare f g a c < 0)%Z.
Proof.
  rewrite !lexCompare_lt.
  intros [H1|[E1 H1]] [H2|[E2 H2]].
  - left. eapply compare_lt_trans; eassumption.
  - left. now rewrite <- E2.
  - left. now rewrite E1.
  - right. split; [congruence|]. eapply compare_lt_trans; eassumption.
Qed.

Lemma lexCompare_consistent : Consistent (lexCompare f g).
Proof.
  constructor.
  - intros a. now apply lexCompare_eq.
  - intros a b. rewrite !lexCompare_eq. intuition congruence.
  - intros a b c. rewrite !lexCompare_eq. intuition congruence.
  - exact lexCompare_lt_trans.
  - intros a b c. rewrite !lexCompare_gt. intros H1 H2.
    eapply lexCompare_lt_trans; eassumption.
Qed.

End Lexicographic.

Lemma tertiaryCompare_consistent : Consistent tertiaryCompare.
Proof. exact (lexCompare_consistent asciiLower swapCase). Qed.

(** ** The derived view *)

Lemma filteredContacts_perm toLowerCase localeCompare
      (active : list Contact) (query : string) :
  Permutation (filteredContacts toLowerCase localeCompare active query)
              (filtered toLowerCase active query).
Proof. apply sort_perm. Qed.

Lemma filteredContacts_In toLowerCase localeCompare
      (active : list Contact) (query : string) (c : Contact) :
  In c (filteredContacts toLowerCase localeCompare active query) <->
  In c (filtered toLowerCase active query).
Proof.
  split; apply Permutation_in.
  - apply filteredContacts_perm.
  - apply Permutation_sym, filteredContacts_perm.
Qed.

Lemma filtered_In toLowerCase (active : list Contact) (query : string)
      (c : Contact) :
  In c (filtered toLowerCase active query) <->
  In c active /\
  (JS.trim query = "" \/
   JS.includes (toLowerCase (name c)) (toLowerCase query) = true).
Proof.
  unfold filtered. destruct (string_eqb_spec (JS.trim query) "") as [E|N].
  - tauto.
  - rewrite filter_In. unfold matchesQuery. tauto.
Qed.

(** *** Letter case on ASCII *)

Lemma isAscii_app (a b : string) :
  isAscii (a ++ b) = isAscii a && isAscii b.
Proof.
  induction a as [|c a IH]; simpl; [reflexivity|].
  now rewrite IH, andb_assoc.
Qed.

Lemma asciiLower_app (a b : string) :
  asciiLower (a ++ b) = (asciiLower a ++ asciiLower b)%js.
Proof. induction a as [|c a IH]; simpl; [reflexivity|]. now rewrite IH. Qed.





Lemma asciiLower_lowersAscii : lowersAscii asciiLower.
Proof. intros s _. reflexivity. Qed.






(** The scenarios of the search and of the favourites: a search for "am"
    shows Amy only; a favourite is shown first. *)
Example view_scenarios :
  filteredContacts asciiLower tertiaryCompare [bob; upperAmy] "am" = [upperAmy] /\
  filteredContacts asciiLower tertiaryCompare [bob; upperAmy] "" = [upperAmy; bob] /\
  filteredContacts asciiLower tertiaryCompare [withFavorite true bob; upperAmy] ""
  = [withFavorite true bob; upperAmy].
Proof. repeat split; reflexivity. Qed.

Lemma StronglySorted_weaken {A : Type} (R R' : A -> A -> Prop) (l : list A) :
  (forall a b, R a b -> R' a b) -> StronglySorted R l -> StronglySorted R' l.
Proof.
  intros W. induction 1 as [|a l S IH F]; constructor; auto.
  eapply Forall_impl; [|exact F]. auto.
Qed.

Lemma compareContacts_zero localeCompare (a b : Contact) :
  (compareContacts localeCompare a b =? 0)%Z =
  Bool.eqb (isFavorite a) (isFavorite b) &&
  (localeCompare (name a) (name b) =? 0)%Z.
Proof.
  unfold compareContacts.
  destruct (isFavorite a), (isFavorite b); reflexivity.
Qed.

(** C3 (as amended).  For a consistent [localeCompare], in the derived view
    every favourite stands before every contact that is not one, within each
    of the two groups the names are in [localeCompare] order, and the records
    that the comparator cannot tell apart (same favourite flag, names that
    [localeCompare] declares equal) keep the relative order they had in the
    filtered collection. *)
Theorem C3_view_order
        (toLowerCase : string -> string)
        (localeCompare : string -> string -> Z)
        (L : Consistent localeCompare)
        (active : list Contact) (query : string) :
  StronglySorted (fun a b => isFavorite b = true -> isFavorite a = true)
                 (filteredContacts toLowerCase localeCompare active query) /\
  StronglySorted (fun a b => isFavorite a = isFavorite b ->
                             (localeCompare (name a) (name b) <= 0)%Z)
                 (filteredContacts toLowerCase localeCompare active query) /\
  (forall a,
      filter (fun b => Bool.eqb (isFavorite a) (isFavorite b) &&
                       (localeCompare (name a) (name b) =? 0)%Z)
             (filteredContacts toLowerCase localeCompare active query) =
      filter (fun b => Bool.eqb (isFavorite a) (isFavorite b) &&
                       (localeCompare (name a) (name b) =? 0)%Z)
             (filtered toLowerCase active query)).
Proof.
  pose proof (compareContacts_consistent localeCompare L) as C.
  pose proof (sort_sorted _ C (filtered toLowerCase active query)) as S.
  fold (filteredContacts toLowerCase localeCompare active query) in S.
  repeat split.
  - revert S. apply StronglySorted_weaken.
    unfold notAbove, compareContacts. intros a b.
    destruct (isFavorite a), (isFavorite b); simpl; intros; auto; lia.
  - revert S. apply StronglySorted_weaken.
    unfold notAbove, compareContacts. intros a b.
    destruct (isFavorite a), (isFavorite b); simpl; intros; auto; discriminate.
  - intros a. unfold filteredContacts.
    rewrite <- (filter_ext _ _ (compareContacts_zero localeCompare a)).
    rewrite <- (filter_ext _ _ (compareContacts_zero localeCompare a)).
    apply sort_stable, C.
Qed.

Lemma C3_view_order_witness :
  Consistent tertiaryCompare /\
  StronglySorted (fun a b => isFavorite b = true -> isFavorite a = true)
                 (filteredContacts asciiLower tertiaryCompare
                    [bob; withFavorite true upperAmy; ann; lowerAmy] "a") /\
  filteredContacts asciiLower tertiaryCompare
    [bob; withFavorite true upperAmy; ann; lowerAmy] "a"
  = [withFavorite true upperAmy; lowerAmy; ann; bob].
Proof.
  split; [exact tertiaryCompare_consistent|].
  split; [|reflexivity].
  exact (proj1 (C3_view_order asciiLower tertiaryCompare tertiaryCompare_consistent
                  [bob; withFavorite true upperAmy; ann; lowerAmy] "a")).
Defined.

(** C3, the claim as written fails.  [tertiaryCompare] is a consistent
    comparator; with it as [localeCompare], two contacts with the same
    favourite flag whose names are equal up to letter case are shown in the
    order opposite to the one they have in the collection. *)
Lemma C3_case_tie_reordered :
  Consistent tertiaryCompare /\
  isFavorite upperAmy = isFavorite lowerAmy /\
  equalIgnoringCase (name upperAmy) (name lowerAmy) = true /\
  filteredContacts asciiLower tertiaryCompare [upperAmy; lowerAmy] ""
  = [lowerAmy; upperAmy].
Proof.
  split; [exact tertiaryCompare_consistent|].
  repeat split; reflexivity.
Qed.

(** ** Favourite toggle *)

Lemma nth_error_map_Some {A B : Type} (f : A -> B) (l : list A) n a :
  nth_error l n = Some a -> nth_error (map f l) n = Some (f a).
Proof.
  revert n. induction l as [|x l IH]; intros [|n]; simpl; try discriminate.
  - now intros [= ->].
  - apply IH.
Qed.

Lemma map_unchanged {A : Type} (f : A -> A) (l : list A) :
  (forall a, In a l -> f a = a) -> map f l = l.
Proof.
  induction l as [|x l IH]; simpl; intros H; [reflexivity|].
  rewrite H by now left. rewrite IH; [reflexivity|]. intros a Ha. apply H. now right.
Qed.

Lemma contacts_handleToggleFavorite contactId s :
  contacts (handleToggleFavorite contactId s) =
  map (fun contact =>
         if (id contact =? contactId)%Z
         then withFavorite (negb (isFavorite contact)) contact else contact)
      (contacts s).
Proof.
  unfold handleToggleFavorite.
  destruct (findContact contactId (contacts s)); reflexivity.
Qed.

(** C10.  Toggling a favourite keeps the length and the order of the stored
    collection: the record at each position keeps its id, name, email, phone,
    location, address and birthday; it is left as it is when its id is not the
    given one, and has its [isFavorite] negated when it is.  When no record
    has the given id the collection is unchanged. *)
Theorem C10_toggle_frame (contactId : Z) (s : State) :
  List.length (contacts (handleToggleFavorite contactId s)) = List.length (contacts s) /\
  (forall n c,
      nth_error (contacts s) n = Some c ->
      exists c',
        nth_error (contacts (handleToggleFavorite contactId s)) n = Some c' /\
        id c' = id c /\ name c' = name c /\ email c' = email c /\
        phone c' = phone c /\ location c' = location c /\
        address c' = address c /\ birthday c' = birthday c /\
        (id c <> contactId -> c' = c) /\
        (id c = contactId -> isFavorite c' = negb (isFavorite c))) /\
  ((forall c, In c (contacts s) -> id c <> contactId) ->
   contacts (handleToggleFavorite contactId s) = contacts s).
Proof.
  rewrite contacts_handleToggleFavorite. repeat split.
  - apply length_map.
  - intros n c Hn.
    eexists. split; [exact (nth_error_map_Some _ _ _ _ Hn)|].
    destruct (Z.eqb_spec (id c) contactId) as [E|N]; simpl;
      repeat split; auto; try congruence.
  - intros H. apply map_unchanged. intros c Hc.
    destruct (Z.eqb_spec (id c) contactId) as [E|N]; [|reflexivity].
    now apply H in Hc.
Qed.

(** ** Update *)

(** C5 (as amended).  [handleUpdateContact] puts the given contact in the
    place of every stored record that has its id and leaves every other
    record, the length and the order as they are; it always announces
    success.  When no stored record has the id, the collection is unchanged
    and success is announced all the same. *)
Theorem C5_update_replaces (updatedContact : Contact) (s : State) :
  List.length (contacts (handleUpdateContact updatedContact s)) =
    List.length (contacts s) /\
  (forall n c,
      nth_error (contacts s) n = Some c ->
      nth_error (contacts (handleUpdateContact updatedContact s)) n =
      Some (if (id c =? id updatedContact)%Z then updatedContact else c)) /\
  toast (handleUpdateContact updatedContact s) =
    mkToast true (String 0x2713 " " ++ name updatedContact ++ " updated successfully!") success /\
  ((forall c, In c (contacts s) -> id c <> id updatedContact) ->
   contacts (handleUpdateContact updatedContact s) = contacts s).
Proof.
  repeat split.
  - apply length_map.
  - intros n c Hn. simpl.
    exact (nth_error_map_Some
             (fun contact => if (id contact =? id updatedContact)%Z
                             then updatedContact else contact) _ _ _ Hn).
  - intros H. simpl. apply map_unchanged. intros c Hc.
    destruct (Z.eqb_spec (id c) (id updatedContact)) as [E|N]; [|reflexivity].
    now apply H in Hc.
Qed.

(** C5, the claim as written fails: an update with an id that no stored
    record has is not reported as a failure.  The collection is left as it
    was and the toast announces that the contact was updated.  The same
    happens on the page when a contact is deleted while its edit form is open
    and the form is then submitted. *)
Lemma C5_unknown_id_announces_success :
  existsb (fun c => (id c =? id zed)%Z) (contacts (initialState [ann; bob])) = false /\
  contacts (handleUpdateContact zed (initialState [ann; bob])) =
    contacts (initialState [ann; bob]) /\
  toast (handleUpdateContact zed (initialState [ann; bob])) =
    mkToast true (String 0x2713 " Zed updated successfully!") success /\
  contacts (run [ShowInfo 1; ClickEdit; ClickDelete 1; ConfirmDelete]
                (initialState [ann; bob])) = [bob] /\
  contacts (run [ShowInfo 1; ClickEdit; ClickDelete 1; ConfirmDelete;
                 SubmitEditForm movesForm]
                (initialState [ann; bob])) = [bob] /\
  toast (run [ShowInfo 1; ClickEdit; ClickDelete 1; ConfirmDelete;
              SubmitEditForm movesForm]
             (initialState [ann; bob])) =
    mkToast true (String 0x2713 " Ann Lee updated successfully!") success.
Proof. repeat split; reflexivity. Qed.

(** ** Delete and undo *)

Lemma findContact_middle (l1 l2 : list Contact) (c : Contact) :
  (forall x, In x l1 -> id x <> id c) ->
  findContact (id c) (l1 ++ c :: l2) = Some c.
Proof.
  unfold findContact. induction l1 as [|y l1 IH]; simpl; intros H.
  - now rewrite Z.eqb_refl.
  - destruct (Z.eqb_spec (id y) (id c)) as [E|N].
    + exfalso. apply (H y); auto.
    + apply IH. intros x Hx. apply H. now right.
Qed.

Lemma filter_other_ids (l : list Contact) (i : Z) :
  (forall x, In x l -> id x <> i) ->
  filter (fun x => negb (id x =? i)%Z) l = l.
Proof.
  induction l as [|y l IH]; simpl; intros H; [reflexivity|].
  destruct (Z.eqb_spec (id y) i) as [E|N]; simpl.
  - exfalso. apply (H y); auto.
  - rewrite IH; [reflexivity|]. intros x Hx. apply H. now right.
Qed.

(** C8.  When a record is pending and a second delete is confirmed, the
    pending slot holds the second record, the UNDO button is offered, and an
    undo appends the second record to what is left of the collection and
    empties the slot.  The state reached by the confirmation does not depend
    on the record that was pending before, so nothing can bring that record
    back. *)
Theorem C8_second_delete_discards_first (s : State) (first second : Contact) :
  deletedContact s = Some first ->
  contactToDelete s = Some second ->
  deletedContact (handleConfirmDelete s) = Some second /\
  undoRendered (handleConfirmDelete s) = true /\
  contacts (handleUndoDelete (handleConfirmDelete s)) =
    filter (fun x => negb (id x =? id second)%Z) (contacts s) ++ [second] /\
  deletedContact (handleUndoDelete (handleConfirmDelete s)) = None /\
  (forall other,
      handleConfirmDelete (setDeletedContact other s) = handleConfirmDelete s).
Proof.
  intros _ H2. unfold handleConfirmDelete, undoRendered, handleUndoDelete.
  rewrite H2. simpl. rewrite H2. repeat split; reflexivity.
Qed.

Lemma C8_second_delete_discards_first_witness :
  deletedContact secondDeletePending = Some ann /\
  contactToDelete secondDeletePending = Some bob /\
  contacts (handleUndoDelete (handleConfirmDelete secondDeletePending)) = [bob].
Proof.
  split; [reflexivity|]. split; [reflexivity|].
  exact (proj1 (proj2 (proj2
           (C8_second_delete_discards_first secondDeletePending ann bob
              eq_refl eq_refl)))).
Defined.

Lemma findContact_Some (i : Z) (l : list Contact) (c : Contact) :
  findContact i l = Some c -> In c l /\ id c = i.
Proof.
  unfold findContact. intros H. apply find_some in H.
  destruct H as [H E]. apply Z.eqb_eq in E. tauto.
Qed.

Lemma findContact_split (i : Z) (l : list Contact) (c : Contact) :
  findContact i l = Some c ->
  exists l1 l2, l = l1 ++ c :: l2 /\ forall x, In x l1 -> id x <> i.
Proof.
  unfold findContact. induction l as [|y l IH]; simpl; [discriminate|].
  destruct (Z.eqb_spec (id y) i) as [E|N].
  - intros [= ->]. exists [], l. split; [reflexivity|]. intros x [].
  - intros H. destruct (IH H) as [l1 [l2 [-> H1]]].
    exists (y :: l1), l2. split; [reflexivity|].
    intros x [<-|Hx]; auto.
Qed.

Lemma filter_none {A : Type} (p : A -> bool) (l : list A) :
  (forall x, In x l -> p x = false) -> filter p l = [].
Proof.
  induction l as [|x l IH]; simpl; intros H; [reflexivity|].
  rewrite (H x) by now left. apply IH. intros y Hy. apply H. now right.
Qed.

(** The record that [find] gives is the only one with its id exactly when
    nothing else in the list has that id. *)
Lemma onlyWithId_split (l1 l2 : list Contact) (c : Contact) :
  (forall x, In x l1 -> id x <> id c) ->
  (onlyWithId c (l1 ++ c :: l2) <-> forall x, In x l2 -> id x <> id c).
Proof.
  intros H1. unfold onlyWithId. rewrite filter_app. simpl.
  rewrite Z.eqb_refl.
  rewrite (filter_none _ l1)
    by (intros x Hx; apply Z.eqb_neq; now apply H1).
  simpl. split.
  - intros [= E] x Hx N.
    assert (I : In x (filter (fun y => (id y =? id c)%Z) l2)).
    { apply filter_In. split; [exact Hx|]. now apply Z.eqb_eq. }
    now rewrite E in I.
  - intros H2. f_equal. apply filter_none.
    intros x Hx. apply Z.eqb_neq. now apply H2.
Qed.

Lemma delete_undo_contacts (s : State) (i : Z) (c : Contact) :
  findContact i (contacts s) = Some c ->
  contacts (run [ClickDelete i; ConfirmDelete; ClickUndo] s) =
  filter (fun x => negb (id x =? i)%Z) (contacts s) ++ [c].
Proof.
  intros F. destruct (findContact_Some _ _ _ F) as [_ <-].
  simpl. unfold handleDeleteContact. rewrite F. simpl.
  unfold handleConfirmDelete. simpl. unfold undoRendered. simpl.
  unfold handleUndoDelete. reflexivity.
Qed.

(** C9 (as amended).  A click on a delete button puts the record found for
    the id, as it is then, in the confirmation dialog.  A confirmation, in
    whatever state the dialog is open, removes every record that has the id
    of the record in the dialog and makes that record the pending one, with
    the UNDO button offered.  An undo, in whatever state the button is
    offered, appends the pending record and empties the slot.  When the
    three follow one another, the record [c] that was found is the one put
    back, with every field as it was, behind what is left of the collection;
    the result is a rearrangement of the original collection exactly when
    [c] was the only record with its id, and then it is the original with
    [c] moved to the end. *)
Theorem C9_delete_undo_moves_to_end (s : State) :
  (forall i c,
      findContact i (contacts s) = Some c ->
      contactToDelete (dispatch (ClickDelete i) s) = Some c /\
      showConfirmDialog (dispatch (ClickDelete i) s) = true /\
      deletedContact (run [ClickDelete i; ConfirmDelete] s) = Some c /\
      contacts (run [ClickDelete i; ConfirmDelete; ClickUndo] s) =
        filter (fun x => negb (id x =? i)%Z) (contacts s) ++ [c] /\
      deletedContact (run [ClickDelete i; ConfirmDelete; ClickUndo] s) = None /\
      (Permutation (contacts (run [ClickDelete i; ConfirmDelete; ClickUndo] s))
                   (contacts s)
       <-> onlyWithId c (contacts s)) /\
      (forall l1 l2,
          contacts s = l1 ++ c :: l2 ->
          (forall x, In x (l1 ++ l2) -> id x <> id c) ->
          contacts (run [ClickDelete i; ConfirmDelete; ClickUndo] s)
          = l1 ++ l2 ++ [c])) /\
  (forall d,
      showConfirmDialog s = true ->
      contactToDelete s = Some d ->
      deletedContact (dispatch ConfirmDelete s) = Some d /\
      undoRendered (dispatch ConfirmDelete s) = true /\
      contacts (dispatch ConfirmDelete s) =
        filter (fun x => negb (id x =? id d)%Z) (contacts s) /\
      contacts (run [ConfirmDelete; ClickUndo] s) =
        filter (fun x => negb (id x =? id d)%Z) (contacts s) ++ [d]) /\
  (forall d,
      undoRendered s = true ->
      deletedContact s = Some d ->
      contacts (dispatch ClickUndo s) = contacts s ++ [d] /\
      deletedContact (dispatch ClickUndo s) = None).
Proof.
  split; [|split].
  - intros i c F.
    pose proof (delete_undo_contacts s i c F) as R.
    destruct (findContact_Some _ _ _ F) as [_ Ei].
    destruct (findContact_split _ _ _ F) as [l1 [l2 [Hc H1]]].
    assert (Rm : filter (fun x => negb (id x =? i)%Z) (contacts s) =
                 l1 ++ filter (fun x => negb (id x =? i)%Z) l2).
    { rewrite Hc, filter_app. simpl. rewrite Ei, Z.eqb_refl. simpl.
      f_equal. now apply filter_other_ids. }
    split; [|split; [|split; [|split; [|split; [|split]]]]].
    + simpl. unfold handleDeleteContact. now rewrite F.
    + simpl. unfold handleDeleteContact. now rewrite F.
    + simpl. unfold handleDeleteContact. rewrite F. reflexivity.
    + exact R.
    + simpl. unfold handleDeleteContact. rewrite F. simpl.
      unfold handleConfirmDelete. simpl. unfold undoRendered. simpl.
      unfold handleUndoDelete. reflexivity.
    + rewrite R, Rm, Hc. subst i.
      rewrite (onlyWithId_split l1 l2 c H1). split.
      * intros P. apply Permutation_length in P.
        rewrite !length_app in P. simpl in P.
        assert (Lf : List.length (filter (fun x => negb (id x =? id c)%Z) l2)
                     = List.length l2) by lia.
        apply filter_length_forallb in Lf. rewrite forallb_forall in Lf.
        intros x Hx E. specialize (Lf x Hx).
        rewrite E, Z.eqb_refl in Lf. discriminate.
      * intros H2. rewrite (filter_other_ids l2 (id c) H2), <- app_assoc.
        apply Permutation_app_head, Permutation_sym, Permutation_cons_append.
    + intros k1 k2 Hk Hid. rewrite R, Hk, filter_app. simpl.
      rewrite Ei, Z.eqb_refl. simpl. rewrite <- filter_app, app_assoc.
      f_equal. apply filter_other_ids. now rewrite <- Ei.
  - intros d D E. simpl. rewrite D, E.
    unfold handleConfirmDelete. rewrite E. simpl.
    unfold undoRendered. simpl. unfold handleUndoDelete. simpl.
    repeat split; reflexivity.
  - intros d U E. simpl. rewrite U.
    unfold handleUndoDelete. rewrite E. split; reflexivity.
Qed.

Lemma C9_delete_undo_moves_to_end_witness :
  contacts (run [ClickDelete 1; ConfirmDelete; ClickUndo] (initialState [ann; bob]))
  = [bob; ann] /\
  onlyWithId ann (contacts (initialState [ann; bob])) /\
  Permutation
    (contacts (run [ClickDelete 1; ConfirmDelete; ClickUndo] (initialState [ann; bob])))
    (contacts (initialState [ann; bob])).
Proof.
  pose proof (proj1 (C9_delete_undo_moves_to_end (initialState [ann; bob]))
                    1%Z ann eq_refl) as H.
  split; [exact (proj1 (proj2 (proj2 (proj2 H))))|].
  split; [reflexivity|].
  apply (proj1 (proj2 (proj2 (proj2 (proj2 (proj2 H)))))). reflexivity.
Defined.

(** C9, the claim as written fails.  Two contacts were added with one clock
    reading and share an id: deleting the one that is found for the id and
    undoing takes both away and puts one back, so a contact is lost and the
    result is no rearrangement of the collection.  And a favourite toggle
    made while the confirmation dialog is open changes the stored record but
    not the record in the dialog: the record put back is not a favourite,
    the record that was deleted was one. *)
Lemma C9_record_lost_or_changed :
  map name (contacts twoAddsOneReading) = ["Eve Fox"; "Ian Orr"; "Bob Ray"]%js /\
  map name
      (contacts (run [ClickDelete 1700000000000; ConfirmDelete; ClickUndo]
                     twoAddsOneReading))
  = ["Bob Ray"; "Eve Fox"]%js /\
  contacts (run [ClickDelete 1; ToggleFavorite 1] (initialState [ann; bob]))
  = [withFavorite true ann; bob] /\
  contacts (run [ClickDelete 1; ToggleFavorite 1; ConfirmDelete]
                (initialState [ann; bob]))
  = [bob] /\
  contacts (run [ClickDelete 1; ToggleFavorite 1; ConfirmDelete; ClickUndo]
                (initialState [ann; bob]))
  = [bob; withFavorite false ann].
Proof. repeat split; reflexivity. Qed.

(** ** Timers *)

(** Only the expiry of a timer takes a timer off the queue: every other event
    leaves the pending timers in place and at most starts new ones. *)
Lemma timers_dispatch (e : Event) (s : State) :
  e <> TimerExpires ->
  exists started, timers (dispatch e s) = timers s ++ started.
Proof.
  intros N. destruct e; simpl; try contradiction;
    try (exists []; now rewrite app_nil_r).
  - destruct (showAddForm s); exists []; now rewrite app_nil_r.
  - destruct (showAddForm s); [|exists []; now rewrite app_nil_r].
    unfold AddContactForm.handleSubmit.
    destruct (Errors.isEmpty _); [|exists []; now rewrite app_nil_r].
    now exists [success].
  - unfold handleToggleFavorite.
    destruct (findContact contactId (contacts s));
      [now exists [success] | exists []; now rewrite app_nil_r].
  - unfold handleDeleteContact.
    destruct (findContact contactId (contacts s));
      exists []; now rewrite app_nil_r.
  - destruct (showConfirmDialog s), (contactToDelete s) eqn:E;
      try (exists []; now rewrite app_nil_r).
    unfold handleConfirmDelete. rewrite E. now exists [delete].
  - destruct (showConfirmDialog s), (contactToDelete s);
      exists []; now rewrite app_nil_r.
  - unfold handleShowInfo.
    destruct (findContact contactId (contacts s));
      exists []; now rewrite app_nil_r.
  - destruct (showInfoDialog s), (contactToShow s);
      exists []; now rewrite app_nil_r.
  - destruct (showInfoDialog s), (contactToShow s);
      try (exists []; now rewrite app_nil_r).
    unfold handleShowEditForm. simpl.
    destruct (findContact (id c) (contacts s));
      exists []; now rewrite app_nil_r.
  - destruct (showEditForm s), (contactToEdit s);
      exists []; now rewrite app_nil_r.
  - destruct (showEditForm s), (contactToEdit s);
      try (exists []; now rewrite app_nil_r).
    unfold EditContactForm.handleSubmit.
    destruct (Errors.isEmpty _); [|exists []; now rewrite app_nil_r].
    now exists [success].
  - destruct (undoRendered s); [|exists []; now rewrite app_nil_r].
    unfold handleUndoDelete.
    destruct (deletedContact s);
      [now exists [success] | exists []; now rewrite app_nil_r].
Qed.

(** No timer is ever cancelled.  Every toast starts a timer of its own;
    confirming a delete and undoing a delete each add a timer and leave the
    earlier ones pending; no event other than an expiry takes a timer off the
    queue.  An expiry takes the oldest timer off, hides whatever toast is
    shown and leaves the collection as it is; the expiry of a delete timer empties
    the pending slot whatever record is in it, the expiry of a success timer
    leaves the slot as it is. *)
Lemma timers_never_cancelled (s : State) :
  (forall msg ty, timers (showToast msg ty s) = timers s ++ [ty]) /\
  (forall c, contactToDelete s = Some c ->
             timers (handleConfirmDelete s) = timers s ++ [delete]) /\
  (forall d, deletedContact s = Some d ->
             timers (handleUndoDelete s) = timers s ++ [success] /\
             deletedContact (handleUndoDelete s) = None /\
             contacts (handleUndoDelete s) = contacts s ++ [d]) /\
  (forall e, e <> TimerExpires ->
             exists started, timers (dispatch e s) = timers s ++ started) /\
  contacts (timerExpires s) = contacts s /\
  (forall ty rest, timers s = ty :: rest ->
                   timers (timerExpires s) = rest /\
                   toast (timerExpires s) = hiddenToast) /\
  (forall rest, timers s = delete :: rest ->
                deletedContact (timerExpires s) = None) /\
  (forall rest, timers s = success :: rest ->
                deletedContact (timerExpires s) = deletedContact s).
Proof.
  repeat split.
  - intros c H. unfold handleConfirmDelete. now rewrite H.
  - unfold handleUndoDelete. now rewrite H.
  - unfold handleUndoDelete. now rewrite H.
  - unfold handleUndoDelete. now rewrite H.
  - intros e N. now apply timers_dispatch.
  - unfold timerExpires. destruct (timers s) as [|[] rest]; reflexivity.
  - unfold timerExpires. rewrite H. now destruct ty.
  - unfold timerExpires. rewrite H. now destruct ty.
  - intros rest H. unfold timerExpires. now rewrite H.
  - intros rest H. unfold timerExpires. now rewrite H.
Qed.

(** C6, the code against the claim.  Ann is deleted and restored by UNDO:
    the undo has succeeded and the timer of the delete is still pending.  Bob
    is deleted next: three timers are pending, Bob is in the pending slot and
    the UNDO button is offered.  Then the oldest timer, the one started by
    the delete of Ann, fires: it hides the toast of Bob's delete and empties
    the slot, while Bob's own timer is still pending; a click where the UNDO
    button was changes nothing and Bob is not restored.  After two deletes
    with no undo, two delete timers are pending at once. *)
Lemma C6_stale_timer_ends_undo_window :
  contacts (run [ClickDelete 1; ConfirmDelete; ClickUndo] (initialState [ann; bob]))
  = [bob; ann] /\
  timers (run [ClickDelete 1; ConfirmDelete; ClickUndo] (initialState [ann; bob]))
  = [delete; success] /\
  timers (run deleteUndoDelete (initialState [ann; bob]))
  = [delete; success; delete] /\
  deletedContact (run deleteUndoDelete (initialState [ann; bob])) = Some bob /\
  undoRendered (run deleteUndoDelete (initialState [ann; bob])) = true /\
  timers (run (deleteUndoDelete ++ [TimerExpires]) (initialState [ann; bob]))
  = [success; delete] /\
  toast (run (deleteUndoDelete ++ [TimerExpires]) (initialState [ann; bob]))
  = hiddenToast /\
  deletedContact (run (deleteUndoDelete ++ [TimerExpires]) (initialState [ann; bob]))
  = None /\
  undoRendered (run (deleteUndoDelete ++ [TimerExpires]) (initialState [ann; bob]))
  = false /\
  contacts (run (deleteUndoDelete ++ [TimerExpires; ClickUndo])
                (initialState [ann; bob]))
  = [ann] /\
  timers (run [ClickDelete 1; ConfirmDelete; ClickDelete 2; ConfirmDelete]
              (initialState [ann; bob]))
  = [delete; delete] /\
  deletedContact (run [ClickDelete 1; ConfirmDelete; ClickDelete 2; ConfirmDelete;
                       TimerExpires]
                      (initialState [ann; bob]))
  = None.
Proof. repeat split; reflexivity. Qed.

(** ** Validation *)

Lemma validateForm_same (existingContacts : list Contact) (formData : Form.Data) :
  EditContactForm.validateForm existingContacts formData =
  AddContactForm.validateForm existingContacts formData.
Proof. reflexivity. Qed.

Lemma truthy_false (s : string) : JS.truthy s = false <-> s = "".
Proof. destruct s; simpl; split; congruence. Qed.

Lemma validateForm_duplicate (existingContacts : list Contact) (formData : Form.Data) :
  Errors.phone (AddContactForm.validateForm existingContacts formData) = DuplicatePhone <->
  JS.trim (Form.phone formData) <> "" /\
  exists c, In c existingContacts /\ phone c = JS.trim (Form.phone formData).
Proof.
  unfold AddContactForm.validateForm, DuplicatePhone. simpl.
  destruct (JS.truthy (JS.trim (Form.phone formData))) eqn:T; simpl.
  - assert (N : JS.trim (Form.phone formData) <> "").
    { intros E. apply truthy_false in E. congruence. }
    destruct (existsb _ existingContacts) eqn:X.
    + apply existsb_exists in X. destruct X as [c [Hc E]].
      apply string_eqb_eq in E. split; eauto.
    + split; [discriminate|]. intros [_ [c [Hc E]]].
      assert (existsb
                (fun contact => (phone contact =? JS.trim (Form.phone formData))%js)
                existingContacts = true).
      { apply existsb_exists. exists c. split; [exact Hc|]. now apply string_eqb_eq. }
      congruence.
  - apply truthy_false in T. split; [discriminate|]. intros [N _]. contradiction.
Qed.

(** C4 (as amended).  Validation reports a duplicate phone exactly when the
    candidate's trimmed phone is not empty and is equal to the phone, as it is
    stored, of some active contact whose id is not the excluded one.  A
    submission of the add form that validation rejects for a duplicate phone
    leaves the whole state, and so the active collection, unchanged. *)
Theorem C4_duplicate_phone
        (candidate : Form.Data) (activeContacts : list Contact)
        (excludeId : option Z) :
  (Errors.phone (validate candidate activeContacts excludeId) = DuplicatePhone <->
   JS.trim (Form.phone candidate) <> "" /\
   exists c, In c activeContacts /\
             (forall i, excludeId = Some i -> id c <> i) /\
             phone c = JS.trim (Form.phone candidate)) /\
  (forall s now,
      Errors.phone (validate candidate (contacts s) None) = DuplicatePhone ->
      dispatch (SubmitAddForm now candidate) s = s).
Proof.
  split.
  - unfold validate. destruct excludeId as [i|].
    + rewrite validateForm_same, validateForm_duplicate.
      split; intros [N [c [Hc H]]]; (split; [exact N|]); exists c.
      * apply filter_In in Hc. destruct Hc as [Hc Hi].
        repeat split; auto. intros j [= <-].
        destruct (Z.eqb_spec (id c) i); [discriminate|assumption].
      * destruct H as [Hi E]. split; [|exact E].
        apply filter_In. split; [exact Hc|].
        destruct (Z.eqb_spec (id c) i) as [E'|]; [|reflexivity].
        exfalso. now apply (Hi i).
    + rewrite validateForm_duplicate.
      split; intros [N [c [Hc H]]]; (split; [exact N|]); exists c.
      * repeat split; auto. discriminate.
      * tauto.
  - intros s now H. unfold validate in H. unfold dispatch.
    destruct (showAddForm s); [|reflexivity].
    unfold AddContactForm.handleSubmit.
    destruct (AddContactForm.validateForm (contacts s) candidate) as [n e p].
    simpl in H. subst p. unfold Errors.isEmpty, DuplicatePhone. simpl.
    destruct n, e; reflexivity.
Qed.

(** C4, the claim as written fails.  The stored phone of [spaced] and the
    candidate's phone are equal once trimmed, yet validation reports no
    duplicate, because the stored phone is compared as it is; the submission
    is accepted and the new record is added. *)
Lemma C4_untrimmed_stored_phone_not_detected :
  JS.trim (phone spaced) = JS.trim (Form.phone eveForm) /\
  Errors.phone (validate eveForm [spaced] None) = None /\
  contacts (run [ClickAddNew; SubmitAddForm 1700000000000 eveForm]
                (initialState [spaced]))
  = [AddContactForm.newContact 1700000000000 eveForm; spaced].
Proof. repeat split; reflexivity. Qed.

(** ** Ids *)

Lemma dispatch_SubmitAddForm_valid (s : State) (now : Z) (formData : Form.Data) :
  showAddForm s = true ->
  Errors.isEmpty (AddContactForm.validateForm (contacts s) formData) = true ->
  contacts (dispatch (SubmitAddForm now formData) s) =
  AddContactForm.newContact now formData :: contacts s.
Proof.
  intros H1 H2. unfold dispatch, AddContactForm.handleSubmit.
  now rewrite H1, H2.
Qed.

Lemma issuedIds_from_clock (events : list Event) :
  forall s,
    StronglySorted Z.lt (clockReadings events) ->
    StronglySorted Z.lt (issuedIds events s) /\
    incl (issuedIds events s) (clockReadings events).
Proof.
  induction events as [|e events IH]; intros s S.
  - split; [constructor|apply incl_refl].
  - destruct e; try exact (IH _ S).
    simpl in S. inversion S as [|t l S' F]; subst.
    destruct (IH (dispatch (SubmitAddForm now formData) s) S') as [I1 I2].
    simpl issuedIds. simpl clockReadings.
    destruct (showAddForm s && _).
    + split.
      * simpl. constructor; [exact I1|].
        rewrite Forall_forall in *. intros t Ht. apply F, I2, Ht.
      * simpl. apply incl_cons; [now left|]. now apply incl_tl.
    + split; [exact I1|]. now apply incl_tl.
Qed.

Lemma StronglySorted_lt_NoDup (l : list Z) : StronglySorted Z.lt l -> NoDup l.
Proof.
  induction 1 as [|a l S IH F]; constructor; [|exact IH].
  intros Ha. rewrite Forall_forall in F. apply F in Ha. lia.
Qed.

(** C7 (as amended).  The id of an added record is the clock reading taken at
    its submission: a valid submission puts at the head of the collection a
    record whose id is that reading.  When the readings of a session are
    strictly increasing and above every seed id, and the seed ids are
    pairwise distinct, the seed ids and the ids handed out during the session
    are pairwise distinct. *)
Theorem C7_ids_from_clock (seed : list Contact) (events : list Event) :
  NoDup (map id seed) ->
  StronglySorted Z.lt (clockReadings events) ->
  (forall c t, In c seed -> In t (clockReadings events) -> (id c < t)%Z) ->
  NoDup (map id seed ++ issuedIds events (initialState seed)) /\
  (forall s now formData,
      showAddForm s = true ->
      Errors.isEmpty (AddContactForm.validateForm (contacts s) formData) = true ->
      exists c,
        contacts (dispatch (SubmitAddForm now formData) s) = c :: contacts s /\
        id c = now).
Proof.
  intros N S B. split.
  - destruct (issuedIds_from_clock events (initialState seed) S) as [I1 I2].
    apply NoDup_app; [exact N | now apply StronglySorted_lt_NoDup |].
    intros i Hi Ht. apply in_map_iff in Hi. destruct Hi as [c [<- Hc]].
    apply I2 in Ht. specialize (B c (id c) Hc Ht). lia.
  - intros s now formData H1 H2. eexists. split.
    + now apply dispatch_SubmitAddForm_valid.
    + reflexivity.
Qed.

Lemma C7_ids_from_clock_witness :
  NoDup (map id [ann; bob] ++
         issuedIds [ClickDelete 1; ConfirmDelete;
                    ClickAddNew; SubmitAddForm 1700000000000 eveForm;
                    ClickAddNew; SubmitAddForm 1700000000001 ianForm]
                   (initialState [ann; bob])).
Proof.
  refine (proj1 (C7_ids_from_clock [ann; bob]
    [ClickDelete 1; ConfirmDelete;
     ClickAddNew; SubmitAddForm 1700000000000 eveForm;
     ClickAddNew; SubmitAddForm 1700000000001 ianForm] _ _ _)).
  - simpl. repeat constructor; simpl; intuition discriminate.
  - simpl. repeat constructor.
  - simpl. intros c t [<-|[<-|[]]] [<-|[<-|[]]]; reflexivity.
Defined.

(** C7, the claim as written fails.  Two valid submissions that read the same
    value of the clock give two records with the same id, and a submission
    whose clock reading is the id of a seed contact gives a record with that
    id. *)
Lemma C7_same_reading_same_id :
  map id (contacts (run [ClickAddNew; SubmitAddForm 1700000000000 ianForm;
                         ClickAddNew; SubmitAddForm 1700000000000 eveForm]
                        (initialState [bob])))
  = [1700000000000; 1700000000000; 2]%Z /\
  map id (contacts (run [ClickAddNew; SubmitAddForm 2 eveForm]
                        (initialState [bob])))
  = [2; 2]%Z.
Proof. split; reflexivity. Qed.

(** ** Uniqueness of phone numbers *)

Lemma NoDup_map_filter {B : Type} (g : Contact -> B) (p : Contact -> bool)
      (l : list Contact) :
  NoDup (map g l) -> NoDup (map g (filter p l)).
Proof.
  induction l as [|x l IH]; simpl; intros H; [constructor|].
  inversion H as [|? ? Hx Hl]; subst.
  destruct (p x); simpl; [constructor|]; auto.
  intros Hin. apply Hx. apply in_map_iff in Hin. destruct Hin as [y [E Hy]].
  apply filter_In in Hy. apply in_map_iff. exists y. tauto.
Qed.

Lemma NoDup_map_eq {B : Type} (g : Contact -> B) (l : list Contact) (a b : Contact) :
  NoDup (map g l) -> In a l -> In b l -> g a = g b -> a = b.
Proof.
  induction l as [|x l IH]; simpl; intros H Ha Hb E; [contradiction|].
  inversion H as [|? ? Hx Hl]; subst.
  destruct Ha as [<-|Ha], Hb as [<-|Hb]; auto.
  - exfalso. apply Hx. rewrite E. now apply in_map.
  - exfalso. apply Hx. rewrite <- E. now apply in_map.
Qed.

(** Replacing the records that have the id [i] by a record [u] with that id,
    whose phone no record with another id has, keeps the phones distinct. *)
Lemma NoDup_phone_replace (l : list Contact) (u : Contact) :
  NoDup (map id l) ->
  NoDup (map phone l) ->
  (forall c, In c l -> id c <> id u -> phone c <> phone u) ->
  NoDup (map phone (map (fun c => if (id c =? id u)%Z then u else c) l)).
Proof.
  induction l as [|x l IH]; simpl; intros Hi Hp Hu; [constructor|].
  inversion Hi as [|? ? Hix Hil]; subst.
  inversion Hp as [|? ? Hpx Hpl]; subst.
  assert (IH' := IH Hil Hpl (fun c Hc => Hu c (or_intror Hc))).
  constructor; [|exact IH'].
  intros Hin. apply in_map_iff in Hin. destruct Hin as [y [Ey Hy]].
  apply in_map_iff in Hy. destruct Hy as [z [Ez Hz]].
  destruct (Z.eqb_spec (id x) (id u)) as [Ex|Nx];
    destruct (Z.eqb_spec (id z) (id u)) as [Ez'|Nz]; subst y.
  - apply Hix. rewrite Ex, <- Ez'. now apply in_map.
  - apply (Hu z (or_intror Hz) Nz). exact Ey.
  - apply (Hu x (or_introl eq_refl) Nx). symmetry. exact Ey.
  - apply Hpx. rewrite <- Ey. now apply in_map.
Qed.

Lemma map_id_replace (l : list Contact) (u : Contact) :
  map id (map (fun c => if (id c =? id u)%Z then u else c) l) = map id l.
Proof.
  rewrite map_map. apply map_ext. intros c.
  destruct (Z.eqb_spec (id c) (id u)); congruence.
Qed.

Lemma map_id_toggle (l : list Contact) (i : Z) :
  map id (map (fun c => if (id c =? i)%Z
                        then withFavorite (negb (isFavorite c)) c else c) l)
  = map id l.
Proof.
  rewrite map_map. apply map_ext. intros c. now destruct (id c =? i)%Z.
Qed.

Lemma map_phone_toggle (l : list Contact) (i : Z) :
  map phone (map (fun c => if (id c =? i)%Z
                           then withFavorite (negb (isFavorite c)) c else c) l)
  = map phone l.
Proof.
  rewrite map_map. apply map_ext. intros c. now destruct (id c =? i)%Z.
Qed.

Lemma validateForm_accepts (existingContacts : list Contact) (formData : Form.Data) :
  Errors.isEmpty (AddContactForm.validateForm existingContacts formData) = true ->
  forall c, In c existingContacts -> phone c <> JS.trim (Form.phone formData).
Proof.
  intros V c Hc E.
  assert (D : Errors.phone (AddContactForm.validateForm existingContacts formData)
              = DuplicatePhone).
  { apply validateForm_duplicate. split; [|eauto].
    intros T. unfold Errors.isEmpty, AddContactForm.validateForm in V.
    simpl in V. rewrite T in V. simpl in V.
    destruct (negb _); [discriminate|].
    destruct (if negb _ then _ else _); discriminate. }
  unfold Errors.isEmpty in V. rewrite D in V. unfold DuplicatePhone in V.
  repeat match type of V with
         | context [match ?x with _ => _ end] => destruct x
         end; discriminate.
Qed.

Lemma undoRendered_hidden (s : State) :
  show (toast s) = false -> undoRendered s = false.
Proof. unfold undoRendered. now intros ->. Qed.

Lemma undoRendered_success (s : State) :
  type (toast s) = success -> undoRendered s = false.
Proof. unfold undoRendered. intros ->. simpl. now rewrite andb_false_r. Qed.

Lemma Inv_initialState (seed : list Contact) :
  NoDup (map id seed) ->
  Forall storedTrimmed seed ->
  NoDup (map phone seed) ->
  Inv (initialState seed).
Proof.
  intros Hi Ht Hp. constructor; simpl; try discriminate.
  - now rewrite map_map.
  - now rewrite map_map.
  - rewrite Forall_forall in *. intros c Hc.
    apply in_map_iff in Hc. destruct Hc as [x [<- Hx]]. exact (Ht x Hx).
Qed.

Lemma Inv_same_collection (s s' : State) :
  Inv s ->
  contacts s' = contacts s ->
  showConfirmDialog s' = showConfirmDialog s ->
  contactToDelete s' = contactToDelete s ->
  (undoRendered s' = true -> undoRendered s = true) ->
  deletedContact s' = deletedContact s ->
  Inv s'.
Proof.
  intros [I1 I2 I3 I4 I5] Hc Hs Hd Hu Hp.
  constructor; rewrite ?Hc, ?Hs, ?Hd, ?Hp; auto.
Qed.

Lemma Inv_SubmitAddForm (s : State) (now : Z) (formData : Form.Data) :
  Inv s ->
  admissible (SubmitAddForm now formData) s = true ->
  Inv (dispatch (SubmitAddForm now formData) s).
Proof.
  intros I A. unfold dispatch.
  destruct (showAddForm s); [|exact I].
  unfold AddContactForm.handleSubmit.
  destruct (Errors.isEmpty _) eqn:V; [|exact I].
  destruct I as [I1 I2 I3 I4 I5]. simpl in A.
  constructor; simpl.
  - constructor; [|exact I1].
    intros Hin. apply in_map_iff in Hin. destruct Hin as [c [E Hc]].
    apply negb_true_iff in A.
    assert (X : existsb (fun c => (id c =? now)%Z) (contacts s) = true).
    { apply existsb_exists. exists c. split; [exact Hc|]. now apply Z.eqb_eq. }
    congruence.
  - constructor; [|exact I2].
    intros Hin. apply in_map_iff in Hin. destruct Hin as [c [E Hc]].
    exact (validateForm_accepts _ _ V c Hc E).
  - constructor; [|exact I3]. unfold storedTrimmed. simpl. apply trim_idempotent.
  - intros Hs d Hd. destruct (I4 Hs d Hd) as [c [Hc E]]. exists c. tauto.
  - intros U. rewrite undoRendered_success in U by reflexivity. discriminate.
Qed.

Lemma Inv_ToggleFavorite (s : State) (i : Z) :
  Inv s -> Inv (dispatch (ToggleFavorite i) s).
Proof.
  intros [I1 I2 I3 I4 I5]. unfold dispatch.
  assert (T : Forall storedTrimmed
                (map (fun c => if (id c =? i)%Z
                               then withFavorite (negb (isFavorite c)) c else c)
                     (contacts s))).
  { rewrite Forall_forall in *. intros c Hc.
    apply in_map_iff in Hc. destruct Hc as [x [<- Hx]].
    specialize (I3 x Hx). now destruct (id x =? i)%Z. }
  assert (D : showConfirmDialog s = true ->
              forall d, contactToDelete s = Some d ->
              exists c,
                In c (map (fun c => if (id c =? i)%Z
                                    then withFavorite (negb (isFavorite c)) c else c)
                          (contacts s)) /\ id c = id d /\ phone c = phone d).
  { intros Hs d Hd. destruct (I4 Hs d Hd) as [c [Hc [E1 E2]]].
    eexists. split; [apply in_map, Hc|].
    now destruct (id c =? i)%Z. }
  unfold handleToggleFavorite.
  destruct (findContact i (contacts s)); constructor; simpl;
    rewrite ?map_id_toggle, ?map_phone_toggle; auto.
  intros U. rewrite undoRendered_success in U by reflexivity. discriminate.
Qed.

Lemma Inv_ClickDelete (s : State) (i : Z) :
  Inv s -> Inv (dispatch (ClickDelete i) s).
Proof.
  intros I. unfold dispatch, handleDeleteContact.
  destruct (findContact i (contacts s)) as [c|] eqn:F; [|exact I].
  destruct I as [I1 I2 I3 I4 I5]. constructor; simpl; auto.
  intros _ d [= <-]. exists c. split; [|tauto].
  unfold findContact in F. now apply find_some in F.
Qed.

Lemma Inv_ConfirmDelete (s : State) :
  Inv s -> Inv (dispatch ConfirmDelete s).
Proof.
  intros I. unfold dispatch.
  destruct (showConfirmDialog s) eqn:Hs; [|exact I].
  destruct (contactToDelete s) as [d|] eqn:Hd; [|exact I].
  unfold handleConfirmDelete. rewrite Hd.
  destruct I as [I1 I2 I3 I4 I5].
  destruct (I4 Hs d Hd) as [c [Hc [E1 E2]]].
  constructor; simpl.
  - now apply NoDup_map_filter.
  - now apply NoDup_map_filter.
  - rewrite Forall_forall in *. intros x Hx. apply filter_In in Hx. now apply I3.
  - discriminate.
  - intros _ d' [= <-]. repeat split.
    + rewrite Forall_forall in I3. specialize (I3 c Hc).
      unfold storedTrimmed in *. congruence.
    + intros Hin. apply in_map_iff in Hin. destruct Hin as [x [E Hx]].
      apply filter_In in Hx. destruct Hx as [Hx Hn].
      assert (x = c) by (apply (NoDup_map_eq phone (contacts s)); congruence).
      subst x. rewrite E1, Z.eqb_refl in Hn. discriminate.
    + intros Hin. apply in_map_iff in Hin. destruct Hin as [x [E Hx]].
      apply filter_In in Hx. destruct Hx as [Hx Hn].
      rewrite E, Z.eqb_refl in Hn. discriminate.
Qed.

Lemma Inv_SubmitEditForm (s : State) (formData : Form.Data) :
  Inv s ->
  admissible (SubmitEditForm formData) s = true ->
  Inv (dispatch (SubmitEditForm formData) s).
Proof.
  intros I A. unfold dispatch.
  destruct (showEditForm s); [|exact I].
  destruct (contactToEdit s) as [c0|]; [|exact I].
  unfold EditContactForm.handleSubmit.
  destruct (Errors.isEmpty _) eqn:V; [|exact I].
  rewrite validateForm_same in V.
  destruct I as [I1 I2 I3 I4 I5]. simpl in A. apply negb_true_iff in A.
  constructor; simpl.
  - change (id c0) with (id (EditContactForm.updatedContact c0 formData)).
    now rewrite map_id_replace.
  - change (id c0) with (id (EditContactForm.updatedContact c0 formData)).
    apply NoDup_phone_replace; auto.
    intros c Hc Hn. apply (validateForm_accepts _ _ V).
    apply filter_In. split; [exact Hc|].
    simpl in Hn. now destruct (Z.eqb_spec (id c) (id c0)).
  - rewrite Forall_forall in *. intros c Hc.
    apply in_map_iff in Hc. destruct Hc as [x [<- Hx]].
    destruct (id x =? id c0)%Z; [|now apply I3].
    unfold storedTrimmed. simpl. apply trim_idempotent.
  - congruence.
  - intros U. rewrite undoRendered_success in U by reflexivity. discriminate.
Qed.

Lemma Inv_ClickUndo (s : State) :
  Inv s -> Inv (dispatch ClickUndo s).
Proof.
  intros I. unfold dispatch.
  destruct (undoRendered s) eqn:U; [|exact I].
  unfold handleUndoDelete.
  destruct (deletedContact s) as [d|] eqn:Hd; [|exact I].
  destruct I as [I1 I2 I3 I4 I5].
  destruct (I5 U d Hd) as [T [Np Ni]].
  constructor; simpl.
  - rewrite map_app. apply NoDup_app; auto.
    + simpl. repeat constructor. intros [].
    + simpl. intros a Ha [<-|[]]. contradiction.
  - rewrite map_app. apply NoDup_app; auto.
    + simpl. repeat constructor. intros [].
    + simpl. intros a Ha [<-|[]]. contradiction.
  - apply Forall_app. split; [exact I3|]. now constructor.
  - intros Hs d' Hd'. destruct (I4 Hs d' Hd') as [c [Hc E]].
    exists c. split; [|exact E]. apply in_or_app. now left.
  - intros U'. rewrite undoRendered_success in U' by reflexivity. discriminate.
Qed.

Lemma Inv_TimerExpires (s : State) :
  Inv s -> Inv (dispatch TimerExpires s).
Proof.
  intros I. unfold dispatch, timerExpires.
  destruct (timers s) as [|ty rest]; [exact I|].
  destruct I as [I1 I2 I3 I4 I5].
  destruct ty; constructor; simpl; auto;
    intros U; rewrite undoRendered_hidden in U by reflexivity; discriminate.
Qed.

(** Every admissible event keeps the invariant. *)
Lemma Inv_dispatch (e : Event) (s : State) :
  Inv s -> admissible e s = true -> Inv (dispatch e s).
Proof.
  intros I A. destruct e.
  - eapply Inv_same_collection; eauto.
  - eapply Inv_same_collection; eauto.
  - simpl. destruct (showAddForm s); [|exact I].
    eapply Inv_same_collection; eauto.
  - now apply Inv_SubmitAddForm.
  - now apply Inv_ToggleFavorite.
  - now apply Inv_ClickDelete.
  - now apply Inv_ConfirmDelete.
  - simpl. destruct (showConfirmDialog s) eqn:Hs; [|exact I].
    destruct (contactToDelete s); [|exact I].
    destruct I as [I1 I2 I3 I4 I5]. constructor; simpl; auto. discriminate.
  - simpl. unfold handleShowInfo.
    destruct (findContact contactId (contacts s)); [|exact I].
    eapply Inv_same_collection; eauto.
  - simpl. destruct (showInfoDialog s); [|exact I].
    destruct (contactToShow s); [|exact I].
    eapply Inv_same_collection; eauto.
  - simpl. destruct (showInfoDialog s); [|exact I].
    destruct (contactToShow s) as [c|]; [|exact I].
    unfold handleShowEditForm. simpl.
    destruct (findContact (id c) (contacts s));
      eapply Inv_same_collection; eauto.
  - simpl. destruct (showEditForm s); [|exact I].
    destruct (contactToEdit s); [|exact I].
    eapply Inv_same_collection; eauto.
  - now apply Inv_SubmitEditForm.
  - now apply Inv_ClickUndo.
  - now apply Inv_TimerExpires.
Qed.

Lemma Inv_run (events : list Event) :
  forall s, Inv s -> admissibleRun events s = true -> Inv (run events s).
Proof.
  induction events as [|e events IH]; intros s I A; [exact I|].
  simpl in *. apply andb_true_iff in A. destruct A as [A1 A2].
  apply IH; [now apply Inv_dispatch | exact A2].
Qed.

Lemma Inv_trimmed_phones_distinct (s : State) :
  Inv s -> NoDup (map (fun c => JS.trim (phone c)) (contacts s)).
Proof.
  intros [I1 I2 I3 I4 I5].
  rewrite (map_ext_in _ phone); [exact I2|].
  rewrite Forall_forall in I3. exact I3.
Qed.

(** C1 (as amended).  Start from seed data whose ids are pairwise distinct and
    whose phones are stored trimmed and pairwise distinct.  After any sequence
    of events (search, add, favourite toggle, delete with confirmation or
    cancellation, edit, undo while the UNDO button is rendered, expiry of a
    timer) in which every submitted add reads a clock value that is not the id
    of an active contact and no edit is submitted while the delete
    confirmation is open, no two active contacts have equal trimmed phones. *)
Theorem C1_trimmed_phones_distinct (seed : list Contact) (events : list Event) :
  NoDup (map id seed) ->
  Forall storedTrimmed seed ->
  NoDup (map phone seed) ->
  admissibleRun events (initialState seed) = true ->
  NoDup (map (fun c => JS.trim (phone c))
             (contacts (run events (initialState seed)))).
Proof.
  intros Hi Ht Hp A.
  apply Inv_trimmed_phones_distinct, Inv_run; [|exact A].
  now apply Inv_initialState.
Qed.

Lemma C1_trimmed_phones_distinct_witness :
  map phone (contacts (run sampleSession (initialState [ann; bob])))
    = ["555-0142"; "555-0100"]%js /\
  NoDup (map (fun c => JS.trim (phone c))
             (contacts (run sampleSession (initialState [ann; bob])))).
Proof.
  split; [reflexivity|].
  apply (C1_trimmed_phones_distinct [ann; bob] sampleSession).
  - simpl. repeat constructor; simpl; intuition discriminate.
  - repeat constructor.
  - simpl. repeat constructor; simpl; intuition discriminate.
  - reflexivity.
Defined.

(** C1, the claim as written fails.  The seed [[spaced]] has pairwise distinct
    trimmed phones.  Its stored phone has a leading space, the add form
    compares the stored phone as it is with the trimmed input, and so accepts
    a new contact with the same trimmed phone. *)
Lemma C1_untrimmed_seed_admits_duplicate :
  NoDup (map (fun c => JS.trim (phone c)) [spaced]) /\
  map (fun c => JS.trim (phone c))
      (contacts (run [ClickAddNew; SubmitAddForm 1700000000000 eveForm]
                     (initialState [spaced])))
  = ["555-0100"; "555-0100"]%js.
Proof.
  split; [|reflexivity].
  repeat constructor. intros [].
Qed.

(** The conditions of C1 cannot be dropped. *)

(** [handleUndoDelete] puts the pending record back without looking at the
    collection.  After a delete and an add of the deleted contact's phone the
    handler would give two records with one phone; the page does not offer
    the UNDO button in that state, because the toast is the one of the add. *)
Lemma undo_handler_does_not_validate :
  deletedContact (run [ClickDelete 1; ConfirmDelete;
                       ClickAddNew; SubmitAddForm 1700000000000 eveForm]
                      (initialState [ann; bob])) = Some ann /\
  undoRendered (run [ClickDelete 1; ConfirmDelete;
                     ClickAddNew; SubmitAddForm 1700000000000 eveForm]
                    (initialState [ann; bob])) = false /\
  map phone (contacts (handleUndoDelete
                         (run [ClickDelete 1; ConfirmDelete;
                               ClickAddNew; SubmitAddForm 1700000000000 eveForm]
                              (initialState [ann; bob]))))
  = ["555-0100"; "555-0101"; "555-0100"]%js.
Proof. repeat split; reflexivity. Qed.

(** The confirmation dialog keeps the record as it was when the dialog was
    opened.  When the contact is edited behind the open dialog and another
    contact takes its former phone, confirming and undoing brings the former
    phone back. *)
Lemma edit_behind_confirmation_breaks_uniqueness :
  admissibleRun [ClickDelete 1;
                 ShowInfo 1; ClickEdit; SubmitEditForm movesForm;
                 ShowInfo 2; ClickEdit; SubmitEditForm takesForm;
                 ConfirmDelete; ClickUndo]
                (initialState [ann; bob]) = false /\
  map phone (contacts (run [ClickDelete 1;
                            ShowInfo 1; ClickEdit; SubmitEditForm movesForm;
                            ShowInfo 2; ClickEdit; SubmitEditForm takesForm;
                            ConfirmDelete; ClickUndo]
                           (initialState [ann; bob])))
  = ["555-0100"; "555-0100"]%js.
Proof. split; reflexivity. Qed.

(** An update replaces every record that has the id, so two records with one
    id end with one phone. *)
Lemma shared_id_breaks_uniqueness :
  map phone (contacts (run [ShowInfo 1; ClickEdit; SubmitEditForm movesForm]
                           (initialState [ann; annTwin; bob])))
  = ["555-0142"; "555-0142"; "555-0101"]%js.
Proof. reflexivity. Qed.

(** ** Further properties of the handlers *)

(** Toggling the same favourite twice gives the collection back. *)
Theorem toggle_twice_restores (contactId : Z) (s : State) :
  contacts (handleToggleFavorite contactId (handleToggleFavorite contactId s))
  = contacts s.
Proof.
  rewrite !contacts_handleToggleFavorite, map_map.
  apply map_unchanged. intros c _.
  destruct (Z.eqb_spec (id c) contactId) as [E|N]; simpl.
  - destruct (Z.eqb_spec (id c) contactId) as [_|N']; [|contradiction].
    destruct c as [i n e p l a b f]. unfold withFavorite. simpl.
    now rewrite negb_involutive.
  - now destruct (Z.eqb_spec (id c) contactId).
Qed.

(** Once the timer of the delete toast has expired there is nothing to undo:
    the UNDO button is gone and the handler itself does nothing. *)
Theorem undo_after_expiry_does_nothing (s : State) (rest : list ToastType) :
  timers s = delete :: rest ->
  undoRendered (timerExpires s) = false /\
  handleUndoDelete (timerExpires s) = timerExpires s.
Proof.
  intros H. unfold timerExpires. rewrite H. split; reflexivity.
Qed.

Lemma undo_after_expiry_does_nothing_witness :
  contacts (run [ClickDelete 1; ConfirmDelete; TimerExpires; ClickUndo]
                (initialState [ann; bob])) = [bob] /\
  handleUndoDelete
    (timerExpires (run [ClickDelete 1; ConfirmDelete] (initialState [ann; bob])))
  = timerExpires (run [ClickDelete 1; ConfirmDelete] (initialState [ann; bob])).
Proof.
  split; [reflexivity|].
  exact (proj2 (undo_after_expiry_does_nothing
                  (run [ClickDelete 1; ConfirmDelete] (initialState [ann; bob]))
                  [] eq_refl)).
Defined.

(** ** What the forms accept and what they store *)

Lemma truthy_true (s : string) : JS.truthy s = true <-> s <> "".
Proof. destruct s; simpl; split; congruence. Qed.

Lemma trimStart_split (s : string) :
  exists lead, s = (lead ++ JS.trimStart s)%js /\ allSpace lead = true.
Proof.
  induction s as [|c s [lead [E A]]]; simpl.
  - now exists "".
  - destruct (JS.isWhiteSpace c) eqn:W.
    + exists (String c lead). simpl. now rewrite <- E, W, A.
    + now exists "".
Qed.

Lemma trimEnd_split (s : string) :
  exists trail, s = (JS.trimEnd s ++ trail)%js /\ allSpace trail = true.
Proof.
  induction s as [|c s [trail [E A]]]; simpl.
  - now exists "".
  - destruct (JS.trimEnd s) as [|d r] eqn:T.
    + destruct (JS.isWhiteSpace c) eqn:W.
      * exists (String c trail). simpl in *. subst s. now rewrite W, A.
      * exists trail. simpl in *. now subst s.
    + exists trail. simpl in *. split; [now f_equal|exact A].
Qed.

Lemma trimStart_head (s : string) (c : codeUnit) (r : string) :
  JS.trimStart s = String c r -> JS.nonSpace c = true.
Proof.
  induction s as [|x s IH]; simpl; [discriminate|].
  destruct (JS.isWhiteSpace x) eqn:W; [exact IH|].
  intros [= <- _]. unfold JS.nonSpace. now rewrite W.
Qed.

Lemma trimEnd_last (s pre : string) (c : codeUnit) :
  JS.trimEnd s = (pre ++ String c "")%js -> JS.nonSpace c = true.
Proof.
  revert pre. induction s as [|x s IH]; intros pre; simpl.
  - destruct pre; discriminate.
  - destruct (JS.trimEnd s) as [|d r] eqn:T.
    + destruct (JS.isWhiteSpace x) eqn:W.
      * destruct pre; discriminate.
      * destruct pre as [|y pre]; simpl.
        -- intros [= <-]. unfold JS.nonSpace. now rewrite W.
        -- intros [= _ H]. destruct pre; discriminate.
    + destruct pre as [|y pre]; simpl.
      * discriminate.
      * intros [= _ H]. exact (IH pre H).
Qed.

Lemma trimEnd_cons_nonSpace (c : codeUnit) (s : string) :
  JS.nonSpace c = true -> JS.trimEnd (String c s) = String c (JS.trimEnd s).
Proof.
  unfold JS.nonSpace. intros N. apply negb_true_iff in N. simpl.
  destruct (JS.trimEnd s); [now rewrite N | reflexivity].
Qed.

(** The stored value is the typed one without the white space around it:
    what is cut off at both ends is white space, and what is kept neither
    starts nor ends with white space. *)
Theorem trim_cuts_white_space_only (s : string) :
  (exists lead trail,
      s = (lead ++ JS.trim s ++ trail)%js /\
      allSpace lead = true /\ allSpace trail = true) /\
  (forall c r, JS.trim s = String c r -> JS.nonSpace c = true) /\
  (forall pre c, JS.trim s = (pre ++ String c "")%js -> JS.nonSpace c = true).
Proof.
  unfold JS.trim. repeat split.
  - destruct (trimStart_split s) as [lead [E1 A1]].
    destruct (trimEnd_split (JS.trimStart s)) as [trail [E2 A2]].
    exists lead, trail. repeat split; auto. now rewrite <- E2.
  - intros c r H.
    destruct (JS.trimStart s) as [|x t] eqn:T; [discriminate|].
    pose proof (trimStart_head s x t T) as N.
    rewrite (trimEnd_cons_nonSpace x t N) in H. now injection H as <- _.
  - intros pre c H. exact (trimEnd_last _ _ _ H).
Qed.

Lemma allSpace_trimEnd (s : string) : JS.trimEnd s = "" <-> allSpace s = true.
Proof.
  induction s as [|c s IH]; simpl; [tauto|].
  destruct (JS.trimEnd s) as [|d r].
  - destruct (JS.isWhiteSpace c); simpl.
    + split; intros _; [now apply IH | reflexivity].
    + split; discriminate.
  - split; [discriminate|]. intros H. apply andb_true_iff in H.
    destruct H as [_ H]. apply IH in H. discriminate.
Qed.

Lemma allSpace_trimStart (s : string) : JS.trimStart s = "" <-> allSpace s = true.
Proof.
  induction s as [|c s IH]; simpl; [tauto|].
  destruct (JS.isWhiteSpace c); simpl; [exact IH|]. split; discriminate.
Qed.

(** A text trims to the empty string exactly when it is white space only. *)
Lemma trim_empty_iff (s : string) : JS.trim s = "" <-> allSpace s = true.
Proof.
  unfold JS.trim. rewrite allSpace_trimEnd. split.
  - intros H. destruct (trimStart_split s) as [lead [E A]].
    rewrite E. clear E. induction lead as [|c l IHl]; simpl in *; [exact H|].
    apply andb_true_iff in A. destruct A as [-> A]. now apply IHl.
  - intros H. apply allSpace_trimStart in H. now rewrite H.
Qed.

Lemma afterDot_trimEnd (s : string) : JS.afterDot (JS.trimEnd s) = JS.afterDot s.
Proof.
  destruct s as [|d s]; [reflexivity|].
  destruct (JS.nonSpace d) eqn:N.
  - rewrite trimEnd_cons_nonSpace by exact N. reflexivity.
  - simpl. destruct (JS.trimEnd s); simpl; rewrite ?N; [|reflexivity].
    unfold JS.nonSpace in N. apply negb_false_iff in N. now rewrite N.
Qed.

Lemma starts_with_space (c : codeUnit) (s : string) (f : string -> bool) :
  JS.nonSpace c = false ->
  (forall x t, f (String x t) = true -> JS.nonSpace x = true) ->
  f "" = false ->
  f (JS.trimEnd (String c s)) = false.
Proof.
  intros N H E. simpl. unfold JS.nonSpace in N. apply negb_false_iff in N.
  destruct (JS.trimEnd s) as [|d r].
  - now rewrite N.
  - destruct (f (String c (String d r))) eqn:F; [|reflexivity].
    apply H in F. unfold JS.nonSpace in F. rewrite N in F. discriminate.
Qed.

Lemma domain_trimEnd (s : string) : JS.domain (JS.trimEnd s) = JS.domain s.
Proof.
  induction s as [|x s IH]; [reflexivity|].
  destruct (JS.nonSpace x) eqn:N.
  - rewrite trimEnd_cons_nonSpace by exact N.
    simpl. now rewrite afterDot_trimEnd, IH.
  - transitivity false.
    + apply starts_with_space; auto.
      intros y t H. simpl in H. now apply andb_true_iff in H.
    + simpl. now rewrite N.
Qed.

Lemma afterAt_trimEnd (s : string) : JS.afterAt (JS.trimEnd s) = JS.afterAt s.
Proof.
  destruct s as [|x s]; [reflexivity|].
  destruct (JS.nonSpace x) eqn:N.
  - rewrite trimEnd_cons_nonSpace by exact N. simpl. now rewrite domain_trimEnd.
  - transitivity false.
    + apply starts_with_space; auto.
      intros y t H. simpl in H. now apply andb_true_iff in H.
    + simpl. now rewrite N.
Qed.

Lemma emailTest_trimEnd (s : string) : JS.emailTest (JS.trimEnd s) = JS.emailTest s.
Proof.
  induction s as [|c s IH]; [reflexivity|].
  destruct (JS.nonSpace c) eqn:N.
  - rewrite trimEnd_cons_nonSpace by exact N.
    simpl. rewrite IH, N. f_equal. f_equal.
    destruct s as [|a rest]; [reflexivity|].
    destruct (N.eqb_spec a JS.at_sign) as [->|Na].
    + rewrite trimEnd_cons_nonSpace by reflexivity.
      now rewrite N.eqb_refl, afterAt_trimEnd.
    + simpl. destruct (JS.trimEnd rest); [destruct (JS.isWhiteSpace a)|];
        simpl; try reflexivity;
        destruct (N.eqb_spec a JS.at_sign); try contradiction; reflexivity.
  - simpl. rewrite N. simpl. rewrite <- IH.
    unfold JS.nonSpace in N. apply negb_false_iff in N.
    destruct (JS.trimEnd s) as [|d r]; [now rewrite N|].
    simpl. unfold JS.nonSpace. now rewrite N.
Qed.

Lemma emailTest_trimStart (s : string) :
  JS.emailTest (JS.trimStart s) = JS.emailTest s.
Proof.
  induction s as [|c s IH]; [reflexivity|].
  simpl JS.trimStart. destruct (JS.isWhiteSpace c) eqn:W; [|reflexivity].
  rewrite IH. simpl. unfold JS.nonSpace. now rewrite W.
Qed.

(** Trimming does not change the outcome of the email test. *)
Lemma emailTest_trim (s : string) : JS.emailTest (JS.trim s) = JS.emailTest s.
Proof. unfold JS.trim. now rewrite emailTest_trimEnd, emailTest_trimStart. Qed.

Lemma isEmpty_true (e : Errors.t) :
  Errors.isEmpty e = true <->
  Errors.name e = None /\ Errors.email e = None /\ Errors.phone e = None.
Proof.
  destruct e as [[n|] [m|] [p|]]; simpl; split; try discriminate; try tauto;
    intros [? [? ?]]; discriminate.
Qed.

(** Acceptance, with the email test as the forms compute it. *)
Lemma validateForm_accepted_when
      (existingContacts : list Contact) (formData : Form.Data) :
  Errors.isEmpty (AddContactForm.validateForm existingContacts formData) = true <->
  JS.trim (Form.name formData) <> "" /\
  JS.trim (Form.email formData) <> "" /\
  JS.emailTest (Form.email formData) = true /\
  JS.trim (Form.phone formData) <> "" /\
  (forall c, In c existingContacts -> phone c <> JS.trim (Form.phone formData)).
Proof.
  rewrite isEmpty_true.
  unfold AddContactForm.validateForm. simpl.
  rewrite <- !truthy_true.
  destruct (JS.truthy (JS.trim (Form.name formData)));
    destruct (JS.truthy (JS.trim (Form.email formData)));
    destruct (JS.emailTest (Form.email formData));
    destruct (JS.truthy (JS.trim (Form.phone formData))); simpl;
    try (split; [intros [? [? ?]]; discriminate
                | intros [? [? [? [? ?]]]]; discriminate]).
  destruct (existsb _ existingContacts) eqn:X.
  - split; [intros [_ [_ ?]]; discriminate|].
    intros [_ [_ [_ [_ H]]]]. exfalso.
    apply existsb_exists in X. destruct X as [c [Hc E]].
    apply string_eqb_eq in E. exact (H c Hc E).
  - split; [|tauto]. intros _. repeat split; auto.
    intros c Hc E.
    assert (existsb
              (fun contact => (phone contact =? JS.trim (Form.phone formData))%js)
              existingContacts = true).
    { apply existsb_exists. exists c. split; [exact Hc|]. now apply string_eqb_eq. }
    congruence.
Qed.

(** A submission is accepted exactly when name, email and phone are not blank,
    the email (as typed) matches the pattern, and the trimmed phone is not the
    stored phone of any contact the form was given. *)
Theorem validateForm_accepts_iff
        (existingContacts : list Contact) (formData : Form.Data) :
  Errors.isEmpty (AddContactForm.validateForm existingContacts formData) = true <->
  JS.trim (Form.name formData) <> "" /\
  JS.trim (Form.email formData) <> "" /\
  matchesEmailPattern (Form.email formData) /\
  JS.trim (Form.phone formData) <> "" /\
  (forall c, In c existingContacts -> phone c <> JS.trim (Form.phone formData)).
Proof.
  rewrite validateForm_accepted_when. split.
  - intros [Hn [He [Hp [Ht Hd]]]]. repeat split; auto.
    now apply emailTest_sound.
  - intros [Hn [He [Hp [Ht Hd]]]]. repeat split; auto.
    now apply emailTest_complete.
Qed.

Lemma orNull_present (s : string) : presentText (JS.orNull s).
Proof.
  unfold presentText, JS.orNull. intros t.
  destruct (JS.truthy s) eqn:T; [|discriminate].
  intros [= <-]. now apply truthy_true.
Qed.

Lemma orNull_trim_trimmed (s t : string) :
  JS.orNull (JS.trim s) = Some t -> JS.trim t = t.
Proof.
  unfold JS.orNull. destruct (JS.truthy (JS.trim s)); [|discriminate].
  intros [= <-]. apply trim_idempotent.
Qed.

(** Every record that a form builds from an accepted submission is well
    formed, and its phone is not the stored phone of any contact the form was
    given: the add form's new record and the edit form's updated record
    alike. *)
Theorem accepted_record_wellFormed
        (existingContacts : list Contact) (formData : Form.Data)
        (now : Z) (contact : Contact) :
  Errors.isEmpty (AddContactForm.validateForm existingContacts formData) = true ->
  wellFormed (AddContactForm.newContact now formData) /\
  wellFormed (EditContactForm.updatedContact contact formData) /\
  isFavorite (AddContactForm.newContact now formData) = false /\
  (forall c, In c existingContacts ->
             phone c <> phone (AddContactForm.newContact now formData)).
Proof.
  intros V. apply validateForm_accepted_when in V.
  destruct V as [Vn [Ve [Vp [Vt Vd]]]].
  repeat split; simpl; auto using trim_idempotent, orNull_present;
    try (rewrite emailTest_trim; exact Vp);
    try (intros s; apply orNull_trim_trimmed).
Qed.

Lemma accepted_record_wellFormed_witness :
  wellFormed (AddContactForm.newContact 1700000000001 ianForm) /\
  phone (AddContactForm.newContact 1700000000001 ianForm) = "555-0177".
Proof.
  split; [|reflexivity].
  exact (proj1 (accepted_record_wellFormed [ann; bob] ianForm 1700000000001 ann
                  eq_refl)).
Defined.

(** Opening the edit form on a well-formed record and submitting it as it was
    filled in is accepted, provided no other contact given to the form has the
    record's phone, and the record that comes out is the record that went
    in. *)
Theorem edit_unchanged_is_identity
        (contact : Contact) (existingContacts : list Contact) :
  wellFormed contact ->
  (forall c, In c existingContacts -> phone c <> phone contact) ->
  Errors.isEmpty
    (EditContactForm.validateForm existingContacts (prefill contact)) = true /\
  EditContactForm.updatedContact contact (prefill contact) = contact.
Proof.
  intros [[Nn Tn] [Ne [Te Pe]] [Np Tp] [Pl Tl] [Pa Ta] Pb] D. split.
  - rewrite validateForm_same. apply validateForm_accepted_when.
    unfold prefill. simpl. rewrite Tn, Te, Tp.
    repeat split; auto.
  - destruct contact as [i n e p l a b f].
    unfold EditContactForm.updatedContact, prefill. simpl in *.
    rewrite Tn, Te, Tp. f_equal.
    + destruct l as [s|]; [|reflexivity]. simpl.
      rewrite (Tl s eq_refl). unfold JS.orNull.
      assert (T : JS.truthy s = true) by (apply truthy_true, Pl; reflexivity).
      now rewrite T.
    + destruct a as [s|]; [|reflexivity]. simpl.
      rewrite (Ta s eq_refl). unfold JS.orNull.
      assert (T : JS.truthy s = true) by (apply truthy_true, Pa; reflexivity).
      now rewrite T.
    + destruct b as [s|]; [|reflexivity]. simpl. unfold JS.orNull.
      assert (T : JS.truthy s = true) by (apply truthy_true, Pb; reflexivity).
      now rewrite T.
Qed.

Lemma edit_unchanged_is_identity_witness :
  EditContactForm.updatedContact
    (AddContactForm.newContact 1700000000001 ianForm)
    (prefill (AddContactForm.newContact 1700000000001 ianForm))
  = AddContactForm.newContact 1700000000001 ianForm.
Proof.
  refine (proj2 (edit_unchanged_is_identity
                   (AddContactForm.newContact 1700000000001 ianForm) [ann; bob]
                   _ _)).
  - constructor; simpl; repeat split; try discriminate; try reflexivity;
      intros s [= <-]; try discriminate; reflexivity.
  - simpl. intros c [<-|[<-|[]]]; discriminate.
Defined.

(** ** Invariants of the page *)

Ltac break_match :=
  match goal with
  | |- context [match ?x with _ => _ end] => destruct x eqn:?
  end.

Ltac unfold_handlers :=
  unfold dispatch, handleSearchChange, handleShowAddForm, handleCloseAddForm,
    AddContactForm.handleSubmit, handleAddContact, handleToggleFavorite,
    handleDeleteContact, handleConfirmDelete, handleCancelDelete,
    handleShowInfo, handleCloseInfo, handleShowEditForm, handleCloseEditForm,
    EditContactForm.handleSubmit, handleUpdateContact, handleUndoDelete,
    timerExpires, showToast.

Lemma run_app (events later : list Event) (s : State) :
  run (events ++ later) s = run later (run events s).
Proof.
  revert s. induction events as [|e events IH]; intros s; [reflexivity|].
  simpl. apply IH.
Qed.

Lemma dialog_flags_dispatch (e : Event) (s : State) :
  showConfirmDialog s = isSome (contactToDelete s) /\
  showInfoDialog s = isSome (contactToShow s) /\
  showEditForm s = isSome (contactToEdit s) ->
  showConfirmDialog (dispatch e s) = isSome (contactToDelete (dispatch e s)) /\
  showInfoDialog (dispatch e s) = isSome (contactToShow (dispatch e s)) /\
  showEditForm (dispatch e s) = isSome (contactToEdit (dispatch e s)).
Proof.
  intros [H1 [H2 H3]].
  destruct e; unfold_handlers; simpl; repeat break_match; simpl;
    repeat split; auto; simpl in *; try congruence;
    repeat match goal with
           | H : ?x = _ |- context [?x] => rewrite H
           end; simpl; congruence.
Qed.

(** In every state the page can reach, each dialog's flag is set exactly when
    the dialog has its record: the delete confirmation, the info dialog and
    the edit form are each opened and closed with one hand. *)
Theorem dialog_flags_agree (seed : list Contact) (events : list Event) :
  showConfirmDialog (run events (initialState seed)) =
    isSome (contactToDelete (run events (initialState seed))) /\
  showInfoDialog (run events (initialState seed)) =
    isSome (contactToShow (run events (initialState seed))) /\
  showEditForm (run events (initialState seed)) =
    isSome (contactToEdit (run events (initialState seed))).
Proof.
  assert (G : forall s,
             showConfirmDialog s = isSome (contactToDelete s) /\
             showInfoDialog s = isSome (contactToShow s) /\
             showEditForm s = isSome (contactToEdit s) ->
             showConfirmDialog (run events s) = isSome (contactToDelete (run events s)) /\
             showInfoDialog (run events s) = isSome (contactToShow (run events s)) /\
             showEditForm (run events s) = isSome (contactToEdit (run events s))).
  { induction events as [|e events IH]; intros s H; [exact H|].
    simpl. apply IH. now apply dialog_flags_dispatch. }
  apply G. repeat split; reflexivity.
Qed.

Lemma timersCover_dispatch (e : Event) (s : State) :
  timersCover s -> timersCover (dispatch e s).
Proof.
  intros [H1 H2]. unfold timersCover.
  destruct e; unfold_handlers; simpl; repeat break_match; simpl;
    try (split; assumption);
    try (split; [intros _; now destruct (timers s)
                | intros D; apply in_or_app; simpl; auto]);
    try (split; intros; discriminate).
  all: try (split; [exact H1
                  | intros D;
                    first [ apply H2; congruence
                          | rewrite Heqo in D; discriminate ]]).
  - rewrite Heql. now split.
  - split; [discriminate|]. intros D. specialize (H2 D).
    destruct H2 as [H2|H2]; [discriminate|exact H2].
Qed.

Lemma timersCover_run (events : list Event) (s : State) :
  timersCover s -> timersCover (run events s).
Proof.
  revert s. induction events as [|e events IH]; intros s H; [exact H|].
  simpl. apply IH. now apply timersCover_dispatch.
Qed.

Lemma timers_drain (n : nat) :
  forall s,
    List.length (timers s) = n ->
    timersCover s ->
    timers (run (repeat TimerExpires n) s) = [] /\
    show (toast (run (repeat TimerExpires n) s)) = false /\
    deletedContact (run (repeat TimerExpires n) s) = None /\
    contacts (run (repeat TimerExpires n) s) = contacts s.
Proof.
  induction n as [|n IH]; intros s L [H1 H2].
  - simpl. destruct (timers s); [|discriminate]. repeat split.
    + destruct (show (toast s)); [|reflexivity]. now destruct H1.
    + destruct (deletedContact s); [|reflexivity]. now destruct H2.
  - simpl repeat. simpl run.
    assert (C : timersCover (dispatch TimerExpires s))
      by (apply timersCover_dispatch; now split).
    assert (L' : List.length (timers (dispatch TimerExpires s)) = n).
    { simpl. unfold timerExpires. destruct (timers s) as [|ty rest]; [discriminate|].
      simpl in L. destruct ty; simpl; lia. }
    destruct (IH _ L' C) as [I1 [I2 [I3 I4]]].
    repeat split; auto. etransitivity; [exact I4|].
    simpl. unfold timerExpires.
    destruct (timers s) as [|[] rest]; reflexivity.
Qed.

(** In every state the page can reach, a toast on screen has a pending timer
    and a pending deletion has a pending delete timer.  So once the timers
    that are pending have all fired, no toast is shown, nothing is pending
    any more (the deletion is final), and the collection is what it was. *)
Theorem after_all_timers (seed : list Contact) (events : list Event) :
  timersCover (run events (initialState seed)) /\
  timers (run (events ++
               repeat TimerExpires
                      (List.length (timers (run events (initialState seed)))))
              (initialState seed)) = [] /\
  show (toast (run (events ++
                    repeat TimerExpires
                           (List.length (timers (run events (initialState seed)))))
                   (initialState seed))) = false /\
  deletedContact (run (events ++
                       repeat TimerExpires
                              (List.length (timers (run events (initialState seed)))))
                      (initialState seed)) = None /\
  contacts (run (events ++
                 repeat TimerExpires
                        (List.length (timers (run events (initialState seed)))))
                (initialState seed)) = contacts (run events (initialState seed)).
Proof.
  assert (C : timersCover (run events (initialState seed))).
  { apply timersCover_run. split; simpl; discriminate. }
  split; [exact C|]. rewrite run_app. now apply timers_drain.
Qed.

(** ** What changes the set of contacts *)

Lemma incl_map_id_replace (l : list Contact) (u : Contact) :
  incl (map id l) (map id (map (fun c => if (id c =? id u)%Z then u else c) l)).
Proof. rewrite map_id_replace. apply incl_refl. Qed.

(** No event other than the confirmation of a delete loses a contact: every
    id in the collection before the event is in the collection after it. *)
Theorem only_confirmed_delete_removes (e : Event) (s : State) :
  e <> ConfirmDelete ->
  incl (map id (contacts s)) (map id (contacts (dispatch e s))).
Proof.
  intros N.
  destruct e; try contradiction; unfold_handlers; simpl;
    repeat break_match; simpl;
    rewrite ?map_id_toggle, ?map_app;
    try apply incl_refl;
    try (apply incl_tl, incl_refl);
    try (apply incl_appl, incl_refl).
  change (id c) with (id (EditContactForm.updatedContact c formData)).
  apply incl_map_id_replace.
Qed.

Lemma only_confirmed_delete_removes_witness :
  incl (map id (contacts (initialState [ann; bob])))
       (map id (contacts (dispatch (ToggleFavorite 2) (initialState [ann; bob])))).
Proof.
  apply (only_confirmed_delete_removes (ToggleFavorite 2) (initialState [ann; bob])).
  discriminate.
Defined.

(** ** Distinct ids *)

Lemma idsDistinct_same (s s' : State) :
  idsDistinct s ->
  contacts s' = contacts s ->
  (undoRendered s' = true -> undoRendered s = true) ->
  deletedContact s' = deletedContact s ->
  idsDistinct s'.
Proof.
  intros [I1 I2] Hc Hu Hd. unfold idsDistinct. rewrite Hc, Hd. auto.
Qed.

Lemma idsDistinct_dispatch (e : Event) (s : State) :
  idsDistinct s -> freshAdd e s = true -> idsDistinct (dispatch e s).
Proof.
  intros I A. destruct e; simpl dispatch.
  - eapply idsDistinct_same; eauto.
  - eapply idsDistinct_same; eauto.
  - destruct (showAddForm s); [|exact I]. eapply idsDistinct_same; eauto.
  - destruct (showAddForm s); [|exact I].
    unfold AddContactForm.handleSubmit.
    destruct (Errors.isEmpty _); [|exact I].
    destruct I as [I1 I2]. simpl in A. apply negb_true_iff in A. split; simpl.
    + constructor; [|exact I1].
      intros Hin. apply in_map_iff in Hin. destruct Hin as [c [E Hc]].
      assert (X : existsb (fun c => (id c =? now)%Z) (contacts s) = true).
      { apply existsb_exists. exists c. split; [exact Hc|]. now apply Z.eqb_eq. }
      congruence.
    + intros U. rewrite undoRendered_success in U by reflexivity. discriminate.
  - destruct I as [I1 I2]. unfold handleToggleFavorite.
    destruct (findContact contactId (contacts s)); split; simpl;
      rewrite ?map_id_toggle; auto.
    intros U. rewrite undoRendered_success in U by reflexivity. discriminate.
  - unfold handleDeleteContact.
    destruct (findContact contactId (contacts s)); [|exact I].
    eapply idsDistinct_same; eauto.
  - destruct (showConfirmDialog s); [|exact I].
    destruct (contactToDelete s) as [d|] eqn:Hd; [|exact I].
    unfold handleConfirmDelete. rewrite Hd.
    destruct I as [I1 I2]. split; simpl.
    + now apply NoDup_map_filter.
    + intros _ d' [= <-] Hin. apply in_map_iff in Hin.
      destruct Hin as [x [E Hx]]. apply filter_In in Hx. destruct Hx as [_ Hn].
      rewrite E, Z.eqb_refl in Hn. discriminate.
  - destruct (showConfirmDialog s); [|exact I].
    destruct (contactToDelete s); [|exact I]. eapply idsDistinct_same; eauto.
  - unfold handleShowInfo.
    destruct (findContact contactId (contacts s)); [|exact I].
    eapply idsDistinct_same; eauto.
  - destruct (showInfoDialog s); [|exact I].
    destruct (contactToShow s); [|exact I]. eapply idsDistinct_same; eauto.
  - destruct (showInfoDialog s); [|exact I].
    destruct (contactToShow s) as [c|]; [|exact I].
    unfold handleShowEditForm. simpl.
    destruct (findContact (id c) (contacts s)); eapply idsDistinct_same; eauto.
  - destruct (showEditForm s); [|exact I].
    destruct (contactToEdit s); [|exact I]. eapply idsDistinct_same; eauto.
  - destruct (showEditForm s); [|exact I].
    destruct (contactToEdit s) as [c0|]; [|exact I].
    unfold EditContactForm.handleSubmit.
    destruct (Errors.isEmpty _); [|exact I].
    destruct I as [I1 I2]. split; simpl.
    + change (id c0) with (id (EditContactForm.updatedContact c0 formData)).
      now rewrite map_id_replace.
    + intros U. rewrite undoRendered_success in U by reflexivity. discriminate.
  - destruct (undoRendered s) eqn:U; [|exact I].
    unfold handleUndoDelete.
    destruct (deletedContact s) as [d|] eqn:Hd; [|exact I].
    destruct I as [I1 I2]. specialize (I2 U d Hd). split; simpl.
    + rewrite map_app. apply NoDup_app; auto.
      * simpl. repeat constructor. intros [].
      * simpl. intros a Ha [<-|[]]. contradiction.
    + intros U'. rewrite undoRendered_success in U' by reflexivity. discriminate.
  - unfold timerExpires. destruct (timers s) as [|ty rest]; [exact I|].
    destruct I as [I1 I2].
    destruct ty; split; simpl; auto;
      intros U; rewrite undoRendered_hidden in U by reflexivity; discriminate.
Qed.

Lemma idsDistinct_run (events : list Event) :
  forall s, idsDistinct s -> freshAdds events s = true -> idsDistinct (run events s).
Proof.
  induction events as [|e events IH]; intros s I A; [exact I|].
  simpl in *. apply andb_true_iff in A. destruct A as [A1 A2].
  apply IH; [now apply idsDistinct_dispatch | exact A2].
Qed.

(** When the seed ids are pairwise distinct and every submitted add reads a
    clock value that no active contact has as its id, the ids of the active
    collection stay pairwise distinct through every sequence of events, undo
    included. *)
Theorem ids_stay_distinct (seed : list Contact) (events : list Event) :
  NoDup (map id seed) ->
  freshAdds events (initialState seed) = true ->
  NoDup (map id (contacts (run events (initialState seed)))).
Proof.
  intros N A.
  apply (idsDistinct_run events (initialState seed)); [|exact A].
  split; simpl; [now rewrite map_map | discriminate].
Qed.

Lemma ids_stay_distinct_witness :
  NoDup (map id (contacts (run sampleSession (initialState [ann; bob])))).
Proof.
  apply (ids_stay_distinct [ann; bob] sampleSession).
  - simpl. repeat constructor; simpl; intuition discriminate.
  - reflexivity.
Defined.

(** ** Favourites *)

Lemma toggle_counts (l : list Contact) (i : Z) :
  NoDup (map id l) ->
  forall c,
    findContact i l = Some c ->
    (List.length
       (filter isFavorite
               (map (fun x => if (id x =? i)%Z
                              then withFavorite (negb (isFavorite x)) x else x) l))
     + (if isFavorite c then 1 else 0)
     = List.length (filter isFavorite l) + (if isFavorite c then 0 else 1))%nat.
Proof.
  unfold findContact.
  induction l as [|x l IH]; simpl; intros N c F; [discriminate|].
  inversion N as [|? ? Nx Nl]; subst.
  destruct (Z.eqb_spec (id x) i) as [E|Ne].
  - injection F as <-.
    rewrite (map_unchanged _ l).
    + simpl. destruct (isFavorite x); simpl; lia.
    + intros y Hy. destruct (Z.eqb_spec (id y) i) as [Ey|]; [|reflexivity].
      exfalso. apply Nx. rewrite E, <- Ey. now apply in_map.
  - specialize (IH Nl c F). destruct (isFavorite x); simpl; lia.
Qed.

(** With pairwise distinct ids, toggling a contact that is in the collection
    moves the favourite count by exactly one: up when the contact was not a
    favourite, down when it was. *)
Theorem favoriteCount_toggle (s : State) (contactId : Z) (c : Contact) :
  NoDup (map id (contacts s)) ->
  findContact contactId (contacts s) = Some c ->
  (isFavorite c = false ->
   favoriteCount (handleToggleFavorite contactId s) = S (favoriteCount s)) /\
  (isFavorite c = true ->
   S (favoriteCount (handleToggleFavorite contactId s)) = favoriteCount s).
Proof.
  intros N F. unfold favoriteCount.
  rewrite contacts_handleToggleFavorite.
  pose proof (toggle_counts (contacts s) contactId N c F) as H.
  split; intros E; rewrite E in H; lia.
Qed.

Lemma favoriteCount_toggle_witness :
  favoriteCount (handleToggleFavorite 2 (initialState [ann; bob])) = 1%nat.
Proof.
  refine (proj1 (favoriteCount_toggle (initialState [ann; bob]) 2 bob _ eq_refl)
                eq_refl).
  simpl. repeat constructor; simpl; intuition discriminate.
Defined.

Lemma noFavorite_dispatch (e : Event) (s : State) :
  isToggle e = false -> noFavorite s -> noFavorite (dispatch e s).
Proof.
  intros T [H1 [H2 [H3 H4]]]. unfold noFavorite.
  assert (F : forall i c, findContact i (contacts s) = Some c -> isFavorite c = false).
  { intros i c Hc. unfold findContact in Hc. apply find_some in Hc.
    rewrite Forall_forall in H1. now apply H1. }
  destruct e; try discriminate; unfold_handlers; simpl;
    repeat break_match; simpl;
    repeat split; auto; try discriminate;
    try (intros d [= <-]; eauto; fail).
  all: try (intros d Hd;
            solve [apply H2; congruence | apply H3; congruence
                  | apply H4; congruence]).
  - (* a delete is confirmed *)
    rewrite Forall_forall in *. intros x Hx.
    apply filter_In in Hx. now apply H1.
  - (* the edit form is submitted *)
    rewrite Forall_forall in *. intros x Hx.
    apply in_map_iff in Hx. destruct Hx as [y [<- Hy]].
    destruct (id y =? id c)%Z; simpl; auto.
  - (* undo *)
    apply Forall_app. split; [exact H1|]. constructor; [|constructor]. auto.
Qed.

(** Only a toggle makes a favourite.  After loading, whatever the seed data
    says, no contact is a favourite, and as long as no favourite is toggled
    none becomes one: not by an add, an edit, a delete or an undo. *)
Theorem only_toggle_makes_favorite (seed : list Contact) (events : list Event) :
  existsb isToggle events = false ->
  favoriteCount (run events (initialState seed)) = 0%nat /\
  Forall (fun c => isFavorite c = false) (contacts (run events (initialState seed))).
Proof.
  intros T.
  assert (G : forall s, noFavorite s -> noFavorite (run events s)).
  { induction events as [|e events IH]; intros s H; [exact H|].
    simpl in T. apply orb_false_iff in T. destruct T as [T1 T2].
    simpl. apply (IH T2). now apply noFavorite_dispatch. }
  assert (I : noFavorite (initialState seed)).
  { repeat split; try discriminate. simpl.
    rewrite Forall_forall. intros c Hc.
    apply in_map_iff in Hc. now destruct Hc as [x [<- _]]. }
  destruct (G _ I) as [H _]. split; [|exact H].
  unfold favoriteCount.
  induction H as [|x l Hx Hl IHl]; simpl; [reflexivity|]. now rewrite Hx.
Qed.

Lemma only_toggle_makes_favorite_witness :
  favoriteCount
    (run [ClickDelete 1; ConfirmDelete; ClickUndo;
          ShowInfo 2; ClickEdit; SubmitEditForm movesForm]
         (initialState [withFavorite true ann; bob])) = 0%nat.
Proof.
  exact (proj1 (only_toggle_makes_favorite
                  [withFavorite true ann; bob]
                  [ClickDelete 1; ConfirmDelete; ClickUndo;
                   ShowInfo 2; ClickEdit; SubmitEditForm movesForm]
                  eq_refl)).
Defined.

Lemma map_isFavorite_replace (l : list Contact) (c u : Contact) :
  NoDup (map id l) -> In c l ->
  id u = id c -> isFavorite u = isFavorite c ->
  map isFavorite (map (fun x => if (id x =? id c)%Z then u else x) l)
  = map isFavorite l.
Proof.
  intros N Hc Ei Ef. rewrite map_map. apply map_ext_in. intros x Hx.
  destruct (Z.eqb_spec (id x) (id c)) as [E|]; [|reflexivity].
  rewrite (NoDup_map_eq id l x c N Hx Hc E). exact Ef.
Qed.

(** An edit carries the favourite flag forward.  With pairwise distinct ids,
    when the edit form was opened on a record that is still in the
    collection, submitting it leaves the favourite flag at every position,
    and so the favourite count, as it was. *)
Theorem edit_keeps_favorites (s : State) (c : Contact) (formData : Form.Data) :
  NoDup (map id (contacts s)) ->
  contactToEdit s = Some c ->
  In c (contacts s) ->
  map isFavorite (contacts (dispatch (SubmitEditForm formData) s))
  = map isFavorite (contacts s).
Proof.
  intros N E Hc. simpl. rewrite E.
  destruct (showEditForm s); [|reflexivity].
  unfold EditContactForm.handleSubmit.
  destruct (Errors.isEmpty _); [|reflexivity].
  simpl. now apply map_isFavorite_replace.
Qed.

Lemma edit_keeps_favorites_witness :
  contactToEdit editOpenOnBob = Some (withFavorite true bob) /\
  map isFavorite (contacts (dispatch (SubmitEditForm movesForm) editOpenOnBob))
  = map isFavorite (contacts editOpenOnBob).
Proof.
  split; [reflexivity|].
  apply (edit_keeps_favorites editOpenOnBob (withFavorite true bob) movesForm).
  - vm_compute. repeat constructor; simpl; intuition discriminate.
  - reflexivity.
  - vm_compute. auto.
Defined.

(** ** Searching *)

Lemma StronglySorted_filter {A : Type} (R : A -> A -> Prop) (p : A -> bool)
      (l : list A) :
  StronglySorted R l -> StronglySorted R (filter p l).
Proof.
  induction 1 as [|a l S IH F]; simpl; [constructor|].
  destruct (p a); [|exact IH]. constructor; [exact IH|].
  rewrite Forall_forall in *. intros x Hx. apply filter_In in Hx. now apply F.
Qed.

Lemma filter_comm {A : Type} (p q : A -> bool) (l : list A) :
  filter p (filter q l) = filter q (filter p l).
Proof.
  induction l as [|x l IH]; simpl; [reflexivity|].
  destruct (p x) eqn:P, (q x) eqn:Q; simpl; rewrite ?P, ?Q, IH; reflexivity.
Qed.

(** Sorting what a filter keeps is filtering what the sort gives. *)
Lemma sort_filter (cmp : Contact -> Contact -> Z) (p : Contact -> bool)
      (l : list Contact) :
  Consistent cmp -> sort cmp (filter p l) = filter p (sort cmp l).
Proof.
  intros C. symmetry. apply (sort_unique cmp C).
  - apply StronglySorted_filter, sort_sorted, C.
  - intros a. rewrite filter_comm, (sort_stable cmp C). apply filter_comm.
Qed.

(** A search does not rearrange anything: for a consistent [localeCompare]
    the view for a search text is the view for the empty search text with the
    contacts that do not match taken out, the others in the order they have
    there. *)
Theorem search_keeps_order
        (toLowerCase : string -> string)
        (localeCompare : string -> string -> Z)
        (L : Consistent localeCompare)
        (active : list Contact) (query : string) :
  filteredContacts toLowerCase localeCompare active query =
  filtered toLowerCase (filteredContacts toLowerCase localeCompare active "") query.
Proof.
  unfold filteredContacts, filtered. simpl.
  destruct (String.eqb (JS.trim query) ""); [reflexivity|].
  apply sort_filter, compareContacts_consistent, L.
Qed.

Lemma search_keeps_order_witness :
  Consistent tertiaryCompare /\
  filteredContacts asciiLower tertiaryCompare [bob; upperAmy; ann; lowerAmy] "a" =
  filtered asciiLower
           (filteredContacts asciiLower tertiaryCompare
                             [bob; upperAmy; ann; lowerAmy] "") "a".
Proof.
  split; [exact tertiaryCompare_consistent|].
  exact (search_keeps_order asciiLower tertiaryCompare tertiaryCompare_consistent
                            [bob; upperAmy; ann; lowerAmy] "a").
Defined.

Lemma allSpace_app (a b : string) :
  allSpace (a ++ b) = allSpace a && allSpace b.
Proof.
  induction a as [|x a IH]; simpl; [reflexivity|].
  now rewrite IH, andb_assoc.
Qed.

Lemma asciiLower_includes_part (text pre fragment post : string) :
  JS.includes (asciiLower text) (asciiLower (pre ++ fragment ++ post)) = true ->
  JS.includes (asciiLower text) (asciiLower fragment) = true.
Proof.
  rewrite !includes_spec. intros [a [b E]]. rewrite !asciiLower_app in E.
  exists (a ++ asciiLower pre)%js, (asciiLower post ++ b)%js.
  rewrite E. now rewrite !append_assoc.
Qed.

(** Typing more never brings a contact back, as long as the names and the
    search text are made of ASCII characters: whoever is in the view for a
    search text is in the view for every part of that text. *)
Theorem longer_search_narrows
        (toLowerCase : string -> string)
        (localeCompare : string -> string -> Z)
        (active : list Contact) (pre query post : string) :
  lowersAscii toLowerCase ->
  Forall (fun c => isAscii (name c) = true) active ->
  isAscii (pre ++ query ++ post) = true ->
  incl (filteredContacts toLowerCase localeCompare active (pre ++ query ++ post))
       (filteredContacts toLowerCase localeCompare active query).
Proof.
  intros A N Q c Hc.
  apply filteredContacts_In, filtered_In in Hc.
  apply filteredContacts_In, filtered_In.
  destruct Hc as [Hin [E|H]]; split; auto.
  - left. apply trim_empty_iff in E. apply trim_empty_iff.
    rewrite !allSpace_app in E.
    apply andb_true_iff in E. destruct E as [_ E].
    apply andb_true_iff in E. tauto.
  - right. rewrite Forall_forall in N.
    rewrite (A _ (N c Hin)), (A _ Q) in H.
    rewrite !isAscii_app in Q.
    apply andb_true_iff in Q. destruct Q as [_ Q].
    apply andb_true_iff in Q. destruct Q as [Q _].
    rewrite (A _ (N c Hin)), (A _ Q).
    exact (asciiLower_includes_part _ _ _ _ H).
Qed.

Lemma longer_search_narrows_witness :
  incl (filteredContacts asciiLower tertiaryCompare
                         [bob; upperAmy; ann; lowerAmy] "Amy")
       (filteredContacts asciiLower tertiaryCompare
                         [bob; upperAmy; ann; lowerAmy] "m").
Proof.
  apply (longer_search_narrows asciiLower tertiaryCompare
           [bob; upperAmy; ann; lowerAmy] "A" "m" "y").
  - exact asciiLower_lowersAscii.
  - repeat constructor.
  - reflexivity.
Defined.

(** ** The form's own state *)

(** The message of a field depends on the text of that field only (and, for
    the phone, on the contacts the form was given): validation looks at every
    field, whatever the others say. *)
Lemma validateForm_by_field (existingContacts : list Contact)
      (d d' : Form.Data) (f : Field) :
  getField f d = getField f d' ->
  getError f (AddContactForm.validateForm existingContacts d) =
  getError f (AddContactForm.validateForm existingContacts d').
Proof.
  destruct f; simpl; intros E; rewrite ?E; reflexivity.
Qed.

Lemma getField_setField_other (f g : Field) (value : string) (d : Form.Data) :
  f <> g -> getField g (setField f value d) = getField g d.
Proof. destruct f, g; simpl; intros N; try reflexivity; contradiction. Qed.

Lemma getError_clearError_other (f g : Field) (e : Errors.t) :
  f <> g -> getError g (clearError f e) = getError g e.
Proof. destruct f, g; simpl; intros N; try reflexivity; contradiction. Qed.

Lemma shown_clearError (f : Field) (e : Errors.t) :
  shown (getError f (clearError f e)) = false.
Proof. destruct f; reflexivity. Qed.

Lemma Field_eq_dec (f g : Field) : {f = g} + {f <> g}.
Proof. decide equality. Qed.

Lemma messagesCurrent_step (existingContacts : list Contact) (e : FormEvent)
      (st : FormState.t) :
  messagesCurrent existingContacts st ->
  messagesCurrent existingContacts (formStep existingContacts e st).
Proof.
  intros M. destruct e as [f value| |]; simpl.
  - intros g. unfold handleInputChange. simpl.
    destruct (Field_eq_dec f g) as [<-|N].
    + destruct (shown (getError f (FormState.errors st))) eqn:S.
      * rewrite shown_clearError. discriminate.
      * rewrite S. discriminate.
    + assert (K : getError g (if shown (getError f (FormState.errors st))
                              then clearError f (FormState.errors st)
                              else FormState.errors st)
                  = getError g (FormState.errors st)).
      { destruct (shown _); [now apply getError_clearError_other|reflexivity]. }
      rewrite K. intros S. rewrite (M g S).
      apply validateForm_by_field. symmetry.
      now apply getField_setField_other.
  - unfold addFormSubmitted.
    destruct (Errors.isEmpty _); intros g; simpl.
    + destruct g; discriminate.
    + reflexivity.
  - intros g. destruct g; discriminate.
Qed.

(** While the add form is mounted, whatever is typed, submitted or cancelled,
    a message that the form shows under a field is the message that
    validation gives for the text that is in that field now: typing in a
    field takes its message away, and no message outlives the text it was
    about. *)
Theorem shown_messages_are_current
        (existingContacts : list Contact) (events : list FormEvent) :
  messagesCurrent existingContacts
                  (formRun existingContacts events mountedForm).
Proof.
  assert (G : forall st, messagesCurrent existingContacts st ->
                         messagesCurrent existingContacts
                                         (formRun existingContacts events st)).
  { induction events as [|e events IH]; intros st M; [exact M|].
    simpl. apply IH. now apply messagesCurrent_step. }
  apply G. intros f. destruct f; discriminate.
Qed.

Example form_session :
  FormState.errors
    (formRun [ann] [Input FieldName "Eve Fox"; Input FieldPhone "555-0100"; Submit;
                    Input FieldPhone "555-0123"]
             mountedForm)
  = Errors.mk None (Some "Email is required") (Some "").
Proof. reflexivity. Qed.

(** ** The view after a delete and an undo *)

(** Moving a record to the end of a list does not change the result of the
    sort when no record behind it compares equal to it. *)
Lemma sort_moved_to_end (cmp : Contact -> Contact -> Z) (p : Contact -> bool)
      (l1 l2 : list Contact) (c : Contact) :
  Consistent cmp ->
  (forall x, In x l2 -> cmp c x <> 0%Z) ->
  sort cmp (filter p (l1 ++ l2 ++ [c])) = sort cmp (filter p (l1 ++ c :: l2)).
Proof.
  intros C H. apply (sort_unique cmp C); [apply sort_sorted, C|].
  intros a. rewrite (sort_stable cmp C).
  rewrite !filter_app. simpl.
  destruct (p c); simpl; [|now rewrite app_nil_r].
  destruct (cmp a c =? 0)%Z eqn:E; simpl; [|now rewrite app_nil_r].
  apply Z.eqb_eq in E.
  rewrite (filter_none (fun b => (cmp a b =? 0)%Z) (filter p l2)); [reflexivity|].
  intros x Hx. apply filter_In in Hx. destruct Hx as [Hx _].
  apply Z.eqb_neq. intros E'. apply (H x Hx).
  apply (cmp_sym cmp C) in E. exact (cmp_trans_eq cmp C c a x E E').
Qed.

Lemma filter_all {A : Type} (l : list A) : filter (fun _ => true) l = l.
Proof. induction l as [|x l IH]; simpl; [reflexivity|]. now rewrite IH. Qed.

(** Deleting a contact and undoing puts the record at the end of the stored
    collection, yet the page shows what it showed before, for every search
    text: provided the contact is the only one with its id and no contact
    stored behind it has its favourite flag and a name that [localeCompare]
    reports as equal. *)
Theorem view_unchanged_by_delete_undo
        (toLowerCase : string -> string)
        (localeCompare : string -> string -> Z)
        (s : State) (l1 l2 : list Contact) (c : Contact) (query : string) :
  Consistent localeCompare ->
  contacts s = l1 ++ c :: l2 ->
  (forall x, In x (l1 ++ l2) -> id x <> id c) ->
  (forall x, In x l2 -> compareContacts localeCompare c x <> 0%Z) ->
  filteredContacts toLowerCase localeCompare
    (contacts (run [ClickDelete (id c); ConfirmDelete; ClickUndo] s)) query
  = filteredContacts toLowerCase localeCompare (contacts s) query.
Proof.
  intros L Hc Hid Hties.
  assert (F : findContact (id c) (contacts s) = Some c).
  { rewrite Hc. apply findContact_middle. intros x Hx. apply Hid.
    apply in_or_app. now left. }
  assert (R : filter (fun x => negb (id x =? id c)%Z) (contacts s) = l1 ++ l2).
  { rewrite Hc, filter_app. simpl. rewrite Z.eqb_refl. simpl.
    rewrite <- filter_app. now apply filter_other_ids. }
  rewrite (delete_undo_contacts s (id c) c F), R, <- app_assoc, Hc.
  pose proof (compareContacts_consistent localeCompare L) as C.
  unfold filteredContacts, filtered.
  destruct (String.eqb (JS.trim query) "").
  - rewrite <- (filter_all (l1 ++ l2 ++ [c])), <- (filter_all (l1 ++ c :: l2)).
    now apply sort_moved_to_end.
  - now apply sort_moved_to_end.
Qed.

Lemma view_unchanged_by_delete_undo_witness :
  Consistent tertiaryCompare /\
  filteredContacts asciiLower tertiaryCompare
    (contacts (run [ClickDelete (id ann); ConfirmDelete; ClickUndo]
                   (initialState [ann; bob]))) ""
  = filteredContacts asciiLower tertiaryCompare (contacts (initialState [ann; bob])) "".
Proof.
  split; [exact tertiaryCompare_consistent|].
  apply (view_unchanged_by_delete_undo
           asciiLower tertiaryCompare (initialState [ann; bob]) [] [bob] ann ""
           tertiaryCompare_consistent eq_refl).
  - simpl. intros x [<-|[]]. discriminate.
  - simpl. intros x [<-|[]]. discriminate.
Defined.
